(** * Schnorr adaptor pre-signatures over secp256k1: a shallow embedding of
      [reference.py] and the properties its specification states. *)

From Stdlib Require Import ZArith List Lia Bool Zpow_facts.
From Stdlib Require Import Zmod.ZmodInv.
From Stdlib.Strings Require Import String Ascii Byte.
Import ListNotations.
Open Scope bool_scope.
Open Scope Z_scope.

(** ** Python exceptions and the result of a call *)

(** The exceptions the program can raise.  The three [ValueError]s and the two
    [RuntimeError]s are told apart by the [raise] statement they come from. *)
Inductive exn : Type :=
| ValueError_msg          (* 'The message must be a 32-byte array.' *)
| ValueError_seckey       (* 'The secret key must be an integer in the range 1..n-1.' *)
| ValueError_aux_rand     (* 'aux_rand must be 32 bytes instead of %i.' *)
| RuntimeError_nonce      (* 'Failure. This happens only with negligible probability.' *)
| RuntimeError_verify     (* 'The created signature does not pass verification.' *)
| AssertionError          (* a failed [assert] *)
| OverflowError.          (* [int.to_bytes] on an integer that does not fit *)

Inductive result (A : Type) : Type :=
| Ok (a : A)
| Raise (e : exn).
Arguments Ok {A} a.
Arguments Raise {A} e.

Definition bind {A B : Type} (r : result A) (k : A -> result B) : result B :=
  match r with
  | Ok a => k a
  | Raise e => Raise e
  end.

Notation "x <- c1 ;; c2" := (bind c1 (fun x => c2))
  (at level 61, c1 at next level, right associativity).

Definition is_value_error (e : exn) : bool :=
  match e with
  | ValueError_msg | ValueError_seckey | ValueError_aux_rand => true
  | _ => false
  end.

Definition is_runtime_error (e : exn) : bool :=
  match e with
  | RuntimeError_nonce | RuntimeError_verify => true
  | _ => false
  end.

(** ** Bytes *)

Definition bytes := list byte.

Definition byte_of_Z (z : Z) : byte :=
  match Byte.of_N (Z.to_N (z mod 256)) with
  | Some b => b
  | None => x00
  end.

Definition Z_of_byte (b : byte) : Z := Z.of_N (Byte.to_N b).

(** [int.from_bytes(b, byteorder="big")] *)
Definition int_from_bytes (b : bytes) : Z :=
  fold_left (fun acc c => acc * 256 + Z_of_byte c) b 0.

(** The [len] big-endian bytes of [v], most significant first. *)
Fixpoint be_bytes (len : nat) (v : Z) : bytes :=
  match len with
  | O => []
  | S l => be_bytes l (v / 256) ++ [byte_of_Z v]
  end.

(** [x.to_bytes(32, byteorder="big")]: Python raises [OverflowError] on a
    negative integer and on one that needs more than 32 bytes. *)
Definition bytes_from_int (v : Z) : result bytes :=
  if (0 <=? v) && (v <? 2 ^ 256) then Ok (be_bytes 32 v) else Raise OverflowError.

(** [bytes(x ^ y for (x, y) in zip(b0, b1))] *)
Fixpoint xor_bytes (b0 b1 : bytes) : bytes :=
  match b0, b1 with
  | c0 :: r0, c1 :: r1 => byte_of_Z (Z.lxor (Z_of_byte c0) (Z_of_byte c1)) :: xor_bytes r0 r1
  | _, _ => []
  end.

(** ** SHA-256 ([hashlib.sha256], FIPS 180-4) on 32-bit words carried in [Z] *)

Module SHA256.

Definition w32 (v : Z) : Z := v mod 2 ^ 32.
Definition add32 (a b : Z) : Z := w32 (a + b).
Definition rotr (k v : Z) : Z := Z.lor (Z.shiftr v k) (w32 (Z.shiftl v (32 - k))).
Definition not32 (v : Z) : Z := Z.lxor v 0xFFFFFFFF.

Definition Ch (e f g : Z) : Z := Z.lxor (Z.land e f) (Z.land (not32 e) g).
Definition Maj (a b c : Z) : Z := Z.lxor (Z.lxor (Z.land a b) (Z.land a c)) (Z.land b c).
Definition Sigma0 (a : Z) : Z := Z.lxor (Z.lxor (rotr 2 a) (rotr 13 a)) (rotr 22 a).
Definition Sigma1 (e : Z) : Z := Z.lxor (Z.lxor (rotr 6 e) (rotr 11 e)) (rotr 25 e).
Definition sigma0 (v : Z) : Z := Z.lxor (Z.lxor (rotr 7 v) (rotr 18 v)) (Z.shiftr v 3).
Definition sigma1 (v : Z) : Z := Z.lxor (Z.lxor (rotr 17 v) (rotr 19 v)) (Z.shiftr v 10).

(** The round constants, four to a row. *)
Definition K : list Z :=
  List.concat
    [ [0x428a2f98; 0x71374491; 0xb5c0fbcf; 0xe9b5dba5];
      [0x3956c25b; 0x59f111f1; 0x923f82a4; 0xab1c5ed5];
      [0xd807aa98; 0x12835b01; 0x243185be; 0x550c7dc3];
      [0x72be5d74; 0x80deb1fe; 0x9bdc06a7; 0xc19bf174];
      [0xe49b69c1; 0xefbe4786; 0x0fc19dc6; 0x240ca1cc];
      [0x2de92c6f; 0x4a7484aa; 0x5cb0a9dc; 0x76f988da];
      [0x983e5152; 0xa831c66d; 0xb00327c8; 0xbf597fc7];
      [0xc6e00bf3; 0xd5a79147; 0x06ca6351; 0x14292967];
      [0x27b70a85; 0x2e1b2138; 0x4d2c6dfc; 0x53380d13];
      [0x650a7354; 0x766a0abb; 0x81c2c92e; 0x92722c85];
      [0xa2bfe8a1; 0xa81a664b; 0xc24b8b70; 0xc76c51a3];
      [0xd192e819; 0xd6990624; 0xf40e3585; 0x106aa070];
      [0x19a4c116; 0x1e376c08; 0x2748774c; 0x34b0bcb5];
      [0x391c0cb3; 0x4ed8aa4a; 0x5b9cca4f; 0x682e6ff3];
      [0x748f82ee; 0x78a5636f; 0x84c87814; 0x8cc70208];
      [0x90befffa; 0xa4506ceb; 0xbef9a3f7; 0xc67178f2] ].


(** The eight working variables a..h, and the chaining value. *)
Record state : Type := mkState
  { sa : Z; sb : Z; sc : Z; sd : Z; se : Z; sf : Z; sg : Z; sh : Z }.

Definition H0 : state :=
  mkState 0x6a09e667 0xbb67ae85 0x3c6ef372 0xa54ff53a 0x510e527f 0x9b05688c 0x1f83d9ab 0x5be0cd19.

Definition pad (m : bytes) : bytes :=
  let l := Z.of_nat (List.length m) in
  let k := Z.to_nat ((55 - l) mod 64) in
  m ++ [x80] ++ repeat x00 k ++ be_bytes 8 (8 * l).

Fixpoint words (len : nat) (b : bytes) : list Z :=
  match len with
  | O => []
  | S l => int_from_bytes (firstn 4 b) :: words l (skipn 4 b)
  end.

(** Message schedule: [w] holds W_{t-1} .. W_0, most recent first. *)
Fixpoint schedule (k : nat) (w : list Z) : list Z :=
  match k with
  | O => w
  | S k' =>
    let v := add32 (add32 (sigma1 (nth 1 w 0)) (nth 6 w 0))
                   (add32 (sigma0 (nth 14 w 0)) (nth 15 w 0)) in
    schedule k' (v :: w)
  end.

Definition round (s : state) (kw : Z * Z) : state :=
  let t1 := add32 (add32 (add32 (sh s) (Sigma1 (se s))) (Ch (se s) (sf s) (sg s)))
                  (add32 (fst kw) (snd kw)) in
  let t2 := add32 (Sigma0 (sa s)) (Maj (sa s) (sb s) (sc s)) in
  mkState (add32 t1 t2) (sa s) (sb s) (sc s) (add32 (sd s) t1) (se s) (sf s) (sg s).

Definition compress (h : state) (block : bytes) : state :=
  let w := rev (schedule 48 (rev (words 16 block))) in
  let s := fold_left round (combine K w) h in
  mkState (add32 (sa h) (sa s)) (add32 (sb h) (sb s)) (add32 (sc h) (sc s))
          (add32 (sd h) (sd s)) (add32 (se h) (se s)) (add32 (sf h) (sf s))
          (add32 (sg h) (sg s)) (add32 (sh h) (sh s)).

Fixpoint blocks (cnt : nat) (h : state) (b : bytes) : state :=
  match cnt with
  | O => h
  | S c => blocks c (compress h (firstn 64 b)) (skipn 64 b)
  end.

Definition digest (h : state) : bytes :=
  be_bytes 4 (sa h) ++ be_bytes 4 (sb h) ++ be_bytes 4 (sc h) ++ be_bytes 4 (sd h) ++
  be_bytes 4 (se h) ++ be_bytes 4 (sf h) ++ be_bytes 4 (sg h) ++ be_bytes 4 (sh h).

Definition sha256 (m : bytes) : bytes :=
  let b := pad m in
  digest (blocks (List.length b / 64) H0 b).

End SHA256.

(** [hashlib.sha256(b).digest()] *)
Definition hash_sha256 (b : bytes) : bytes := SHA256.sha256 b.

(** [tag.encode()]: the UTF-8 bytes of the tag. *)
Definition encode (tag : string) : bytes := list_byte_of_string tag.

Definition tagged_hash (tag : string) (msg : bytes) : bytes :=
  let tag_hash := hash_sha256 (encode tag) in
  hash_sha256 (tag_hash ++ tag_hash ++ msg).

(** ** Curve constants *)

Definition p : Z := 0xFFFFFFFFFFFFFFFFFFFFFFFFFFFFFFFFFFFFFFFFFFFFFFFFFFFFFFFEFFFFFC2F.
Definition n : Z := 0xFFFFFFFFFFFFFFFFFFFFFFFFFFFFFFFEBAAEDCE6AF48A03BBFD25E8CD0364141.

(** Points are pairs of coordinates; the point at infinity is Python's [None]. *)
Definition Point : Type := (Z * Z)%type.

Definition G : Point :=
  (0x79BE667EF9DCBBAC55A06295CE870B07029BFCDB2DCE28D959F2815B16F81798,
   0x483ADA7726A3C4655DA4FBFC0E1108A8FD17B448A68554199C47D08FFB10D4B8).

(** Python's three-argument [pow(b, e, m)] for a non-negative exponent. *)
Definition pow (b e m : Z) : Z := Zpow_mod b e m.

Definition is_infinite (P : option Point) : bool :=
  match P with
  | None => true
  | Some _ => false
  end.

(** [assert c] *)
Definition assert (c : bool) : result unit :=
  if c then Ok tt else Raise AssertionError.

Definition x (P : option Point) : result Z :=
  match P with
  | Some Q => Ok (fst Q)
  | None => Raise AssertionError
  end.

Definition y (P : option Point) : result Z :=
  match P with
  | Some Q => Ok (snd Q)
  | None => Raise AssertionError
  end.

(** ** Curve point arithmetic *)

(** In [point_add] the calls [x(P1)], [y(P1)], ... come after both [is None]
    tests, so their asserts hold and the coordinates are read directly. *)
Definition point_add (P1 P2 : option Point) : option Point :=
  match P1, P2 with
  | None, _ => P2
  | _, None => P1
  | Some (x1, y1), Some (x2, y2) =>
    if (x1 =? x2) && negb (y1 =? y2) then None
    else
      let lam :=
        if (x1 =? x2) && (y1 =? y2)
        then (3 * x1 * x1 * pow (2 * y1) (p - 2) p) mod p
        else ((y2 - y1) * pow (x2 - x1) (p - 2) p) mod p in
      let x3 := (lam * lam - x1 - x2) mod p in
      Some (x3, (lam * (x1 - x3) - y1) mod p)
  end.

(** One iteration of the loop of [point_mul], on the pair (R, P). *)
Definition point_mul_step (k : Z) (st : option Point * option Point) (i : Z)
  : option Point * option Point :=
  let R := if Z.land (Z.shiftr k i) 1 =? 0 then fst st else point_add (fst st) (snd st) in
  (R, point_add (snd st) (snd st)).

Definition range (len : nat) : list Z := map Z.of_nat (seq 0 len).

Definition point_mul (P : option Point) (k : Z) : option Point :=
  fst (fold_left (point_mul_step k) (range 256) (None, P)).

Definition bytes_from_point (P : option Point) : result bytes :=
  v <- x P ;; bytes_from_int v.

Definition lift_x (x : Z) : option Point :=
  if x >=? p then None
  else
    let y_sq := (pow x 3 p + 7) mod p in
    let y := pow y_sq ((p + 1) / 4) p in
    if negb (pow y 2 p =? y_sq) then None
    else Some (x, if Z.land y 1 =? 0 then y else p - y).

Definition lift_x_R0 (x : Z) (parity : Z) : option Point :=
  if x >=? p then None
  else
    let y_sq := (pow x 3 p + 7) mod p in
    let y := pow y_sq ((p + 1) / 4) p in
    if negb (pow y 2 p =? y_sq) then None
    else if parity =? 2
         then Some (x, if Z.land y 1 =? 0 then y else p - y)
         else Some (x, if Z.land y 1 =? 0 then p - y else y).

Definition has_even_y (P : option Point) : result bool :=
  _ <- assert (negb (is_infinite P)) ;;
  v <- y P ;;
  Ok (v mod 2 =? 0).

(** ** Keys and pre-signatures *)

Definition pubkey_gen (seckey : bytes) : result bytes :=
  let d0 := int_from_bytes seckey in
  if negb ((1 <=? d0) && (d0 <=? n - 1)) then Raise ValueError_seckey
  else
    let P := point_mul (Some G) d0 in
    _ <- assert (negb (is_infinite P)) ;;
    bytes_from_point P.

Definition parity_from_point (P : option Point) : result bytes :=
  _ <- assert (negb (is_infinite P)) ;;
  even <- has_even_y P ;;
  Ok (if even then [x02] else [x03]).

(** The verification routine of the source: a stub that accepts everything. *)
Definition schnorr_pre_verify (msg : bytes) (T : option Point) (pubkey pre_sig : bytes) : bool :=
  true.

(** Lines 122-128 of [schnorr_pre_sign]: the public key, the signing exponent
    and the nonce. *)
Definition pre_sign_nonce (msg : bytes) (d0 : Z) (aux_rand : bytes) (T : option Point)
  : result (option Point * Z * Z) :=
  let P := point_mul (Some G) d0 in
  _ <- assert (negb (is_infinite P)) ;;
  even <- has_even_y P ;;
  let d := if even then d0 else n - d0 in
  bd <- bytes_from_int d ;;
  let t := xor_bytes bd (tagged_hash "BIP0340/aux" aux_rand) in
  bT <- bytes_from_point T ;;
  bP <- bytes_from_point P ;;
  let k0 := int_from_bytes (tagged_hash "BIP0340/nonce" (t ++ bT ++ bP ++ msg)) mod n in
  if k0 =? 0 then Raise RuntimeError_nonce
  else Ok (P, d, k0).

(** Lines 129-138 of [schnorr_pre_sign]; [debug_print_vars] does nothing
    since [DEBUG] is [False]. *)
Definition pre_sign_finish (msg : bytes) (T P : option Point) (d k0 : Z) : result bytes :=
  let R := point_mul (Some G) k0 in
  _ <- assert (negb (is_infinite R)) ;;
  even <- has_even_y R ;;
  let k := if negb even then n - k0 else k0 in
  let R0 := point_add R T in
  bR0 <- bytes_from_point R0 ;;
  bP <- bytes_from_point P ;;
  let e := int_from_bytes (tagged_hash "BIP0340/challenge" (bR0 ++ bP ++ msg)) mod n in
  par <- parity_from_point R0 ;;
  bR0' <- bytes_from_point R0 ;;
  bs <- bytes_from_int ((k + e * d) mod n) ;;
  let sig := par ++ bR0' ++ bs in
  bP' <- bytes_from_point P ;;
  if negb (schnorr_pre_verify msg T bP' sig) then Raise RuntimeError_verify
  else Ok sig.

Definition schnorr_pre_sign (msg seckey aux_rand : bytes) (T : option Point) : result bytes :=
  if negb (List.length msg =? 32)%nat then Raise ValueError_msg
  else
    let d0 := int_from_bytes seckey in
    if negb ((1 <=? d0) && (d0 <=? n - 1)) then Raise ValueError_seckey
    else if negb (List.length aux_rand =? 32)%nat then Raise ValueError_aux_rand
    else
      r <- pre_sign_nonce msg d0 aux_rand T ;;
      let '(P, d, k0) := r in
      pre_sign_finish msg T P d k0.

(** * Properties *)

(** ** Bytes and hashes *)

Lemma length_be_bytes (len : nat) (v : Z) : List.length (be_bytes len v) = len.
Proof.
  revert v; induction len as [|l IH]; intro v; simpl.
  - reflexivity.
  - rewrite length_app, IH; simpl; lia.
Qed.

Lemma length_digest (h : SHA256.state) : List.length (SHA256.digest h) = 32%nat.
Proof.
  unfold SHA256.digest. rewrite !length_app, !length_be_bytes. reflexivity.
Qed.

Lemma length_hash_sha256 (m : bytes) : List.length (hash_sha256 m) = 32%nat.
Proof. unfold hash_sha256, SHA256.sha256. apply length_digest. Qed.

Lemma length_tagged_hash (tag : string) (m : bytes) :
  List.length (tagged_hash tag m) = 32%nat.
Proof. unfold tagged_hash. apply length_hash_sha256. Qed.

Lemma bytes_from_int_ok (v : Z) :
  0 <= v < 2 ^ 256 -> bytes_from_int v = Ok (be_bytes 32 v).
Proof.
  intro H. unfold bytes_from_int.
  replace (0 <=? v) with true by (symmetry; apply Z.leb_le; lia).
  replace (v <? 2 ^ 256) with true by (symmetry; apply Z.ltb_lt; lia).
  reflexivity.
Qed.

Lemma bytes_from_int_inv (v : Z) (b : bytes) :
  bytes_from_int v = Ok b -> 0 <= v < 2 ^ 256 /\ b = be_bytes 32 v.
Proof.
  unfold bytes_from_int.
  destruct (Z.leb_spec 0 v) as [Hl|Hl]; destruct (Z.ltb_spec v (2 ^ 256)) as [Hu|Hu];
    simpl; intro E; inversion E; subst; auto.
Qed.

Lemma length_bytes_from_int (v : Z) (b : bytes) :
  bytes_from_int v = Ok b -> List.length b = 32%nat.
Proof.
  intro H. apply bytes_from_int_inv in H. destruct H as [_ ->].
  apply length_be_bytes.
Qed.

(** ** Modular exponentiation *)

Lemma p_pos : 0 < p.
Proof. reflexivity. Qed.

Lemma p_lt_2_256 : p < 2 ^ 256.
Proof. reflexivity. Qed.

Lemma n_lt_2_256 : n < 2 ^ 256.
Proof. reflexivity. Qed.

Lemma n_lt_p : n < p.
Proof. reflexivity. Qed.

Lemma pow_correct (b e m : Z) : m <> 0 -> pow b e m = b ^ e mod m.
Proof. intro H. unfold pow. apply Zpow_mod_correct. exact H. Qed.

Lemma pow_range (b e : Z) : 0 <= pow b e p < p.
Proof.
  rewrite pow_correct by (unfold p; lia).
  apply Z.mod_pos_bound. exact p_pos.
Qed.

Lemma land_1_mod_2 (v : Z) : Z.land v 1 = v mod 2.
Proof. change 1 with (Z.ones 1) at 1. rewrite Z.land_ones by lia. reflexivity. Qed.

(** ** Point addition: identity and inverses *)

(** A valid point: both coordinates are field elements and satisfy the curve
    equation. *)
Definition on_curve (A : Point) : Prop :=
  0 <= fst A < p /\ 0 <= snd A < p /\ (snd A * snd A) mod p = (fst A ^ 3 + 7) mod p.

Definition negate (A : Point) : Point := (fst A, p - snd A).

(** C5: for every valid point [A], adding the identity on either side gives
    [A] back, and adding [A' = (x(A), p - y(A))] gives the identity. *)
Theorem point_add_identity_and_inverse (A : Point) :
  on_curve A ->
  point_add (Some A) None = Some A /\
  point_add None (Some A) = Some A /\
  point_add (Some A) (Some (negate A)) = None.
Proof.
  intros (Hx & Hy & _). destruct A as [xa ya].
  unfold point_add, negate. cbn [fst snd].
  repeat split.
  rewrite Z.eqb_refl.
  destruct (Z.eqb_spec ya (p - ya)) as [E|E]; [|reflexivity].
  exfalso. unfold p in E. lia.
Qed.

Lemma G_on_curve : on_curve G.
Proof. unfold on_curve. repeat split; vm_compute; congruence. Qed.

Lemma point_add_identity_and_inverse_witness :
  on_curve G /\
  point_add (Some G) None = Some G /\
  point_add None (Some G) = Some G /\
  point_add (Some G) (Some (negate G)) = None.
Proof.
  split; [exact G_on_curve | apply (point_add_identity_and_inverse G); exact G_on_curve].
Defined.

(** ** Lifting an x-coordinate *)

(** [v] is a quadratic residue modulo [p]. *)
Definition quadratic_residue (v : Z) : Prop := exists z, (z * z) mod p = v mod p.

Lemma lift_x_check (x : Z) :
  let y_sq := (pow x 3 p + 7) mod p in
  let y := pow y_sq ((p + 1) / 4) p in
  pow y 2 p = y_sq -> quadratic_residue (x ^ 3 + 7).
Proof.
  intros y_sq y0 H. exists y0.
  rewrite pow_correct in H by (unfold p; lia).
  rewrite <- Z.pow_2_r.
  rewrite H. unfold y_sq.
  rewrite pow_correct by (unfold p; lia).
  rewrite Z.add_mod_idemp_l by (unfold p; lia). reflexivity.
Qed.

Lemma even_choice (v : Z) :
  0 <= v < p -> (if Z.land v 1 =? 0 then v else p - v) mod 2 = 0.
Proof.
  intro H. rewrite land_1_mod_2.
  destruct (Z.eqb_spec (v mod 2) 0) as [E|E]; [exact E|].
  unfold p in *. Z.div_mod_to_equations. lia.
Qed.

Lemma odd_choice (v : Z) :
  0 <= v < p -> (if Z.land v 1 =? 0 then p - v else v) mod 2 = 1.
Proof.
  intro H. rewrite land_1_mod_2.
  destruct (Z.eqb_spec (v mod 2) 0) as [E|E];
    unfold p in *; Z.div_mod_to_equations; lia.
Qed.

Lemma Some_inj {A : Type} (a b : A) : Some a = Some b -> a = b.
Proof. intro H. injection H as H. exact H. Qed.

Lemma lift_x_R0_rejects_large (x0 parity : Z) : x0 >= p -> lift_x_R0 x0 parity = None.
Proof.
  intro H. unfold lift_x_R0. destruct (Z.geb_spec x0 p); [reflexivity | lia].
Qed.

(** C7: [lift_x] and [lift_x_R0] reject [x >= p] and every [x] for which
    [x^3 + 7] is not a quadratic residue; when defined, [lift_x_R0 x 2] has an
    even y, [lift_x_R0 x 3] an odd y, both have the x-coordinate of
    [lift_x x], and [lift_x x] has an even y. *)
Theorem lift_x_variants (x0 parity : Z) :
  (x0 >= p -> lift_x x0 = None /\ lift_x_R0 x0 parity = None) /\
  (~ quadratic_residue (x0 ^ 3 + 7) -> lift_x x0 = None /\ lift_x_R0 x0 parity = None) /\
  (forall Q, lift_x x0 = Some Q -> has_even_y (Some Q) = Ok true) /\
  (forall Q, lift_x_R0 x0 2 = Some Q ->
     has_even_y (Some Q) = Ok true /\ lift_x x0 = Some Q /\
     x (lift_x x0) = Ok (fst Q)) /\
  (forall Q, lift_x_R0 x0 3 = Some Q ->
     has_even_y (Some Q) = Ok false /\
     exists Q', lift_x x0 = Some Q' /\ fst Q' = fst Q /\ x (lift_x x0) = Ok (fst Q)).
Proof.
  unfold lift_x, lift_x_R0.
  pose proof (lift_x_check x0) as Hqr. cbv zeta in Hqr.
  pose proof (pow_range ((pow x0 3 p + 7) mod p) ((p + 1) / 4)) as Hy.
  set (y_sq := (pow x0 3 p + 7) mod p) in *.
  set (y0 := pow y_sq ((p + 1) / 4) p) in *.
  pose proof (even_choice y0 Hy) as Hev.
  pose proof (odd_choice y0 Hy) as Hod.
  change (3 =? 2) with false. change (2 =? 2) with true. cbv iota.
  clearbody y0. clearbody y_sq.
  destruct (Z.geb_spec x0 p) as [Hge|Hlt].
  { repeat split; discriminate. }
  assert (x0 >= p -> False) as Hlt' by (clear - Hlt; lia).
  destruct (Z.eqb_spec (pow y0 2 p) y_sq) as [E|E]; cbn [negb].
  2: { repeat split; try discriminate; intros; contradiction. }
  destruct (parity =? 2);
    (split; [intros; contradiction|]); (split; [tauto|]);
    unfold has_even_y, assert, bind, is_infinite, y, x; cbn [negb fst snd];
    (split; [|split]); intros Q HQ; apply Some_inj in HQ; subst Q; cbn [fst snd];
    rewrite ?Hev, ?Hod; repeat split; eauto.
Qed.

(** ** Which exceptions the signing routine can raise *)

Definition never_raises (bad : exn -> bool) {A : Type} (r : result A) : Prop :=
  forall e, r = Raise e -> bad e = false.

Lemma never_raises_Ok (bad : exn -> bool) {A : Type} (a : A) : never_raises bad (Ok a).
Proof. intros e H; discriminate. Qed.

Lemma never_raises_Raise (bad : exn -> bool) {A : Type} (e : exn) :
  bad e = false -> never_raises bad (@Raise A e).
Proof. intros H e' E. inversion E; subst; exact H. Qed.

Lemma never_raises_bind (bad : exn -> bool) {A B : Type} (r : result A) (k : A -> result B) :
  never_raises bad r -> (forall a, never_raises bad (k a)) -> never_raises bad (bind r k).
Proof.
  intros Hr Hk. destruct r as [a|e]; simpl.
  - apply Hk.
  - intros e' E. apply Hr. injection E as ->. reflexivity.
Qed.

Lemma never_raises_if (bad : exn -> bool) {A : Type} (c : bool) (r1 r2 : result A) :
  never_raises bad r1 -> never_raises bad r2 -> never_raises bad (if c then r1 else r2).
Proof. destruct c; auto. Qed.

Ltac never_raises_step :=
  first
    [ apply never_raises_Ok
    | apply never_raises_Raise; reflexivity
    | apply never_raises_bind; [|intro]
    | apply never_raises_if ].

Lemma never_value_error_assert (c : bool) : never_raises is_value_error (assert c).
Proof. unfold assert. repeat never_raises_step. Qed.

Lemma never_value_error_x (P : option Point) : never_raises is_value_error (x P).
Proof. destruct P; simpl; never_raises_step. Qed.

Lemma never_value_error_y (P : option Point) : never_raises is_value_error (y P).
Proof. destruct P; simpl; never_raises_step. Qed.

Lemma never_value_error_bytes_from_int (v : Z) : never_raises is_value_error (bytes_from_int v).
Proof. unfold bytes_from_int. repeat never_raises_step. Qed.

Lemma never_value_error_bytes_from_point (P : option Point) :
  never_raises is_value_error (bytes_from_point P).
Proof.
  unfold bytes_from_point.
  never_raises_step; [apply never_value_error_x | apply never_value_error_bytes_from_int].
Qed.

Lemma never_value_error_has_even_y (P : option Point) :
  never_raises is_value_error (has_even_y P).
Proof.
  unfold has_even_y.
  never_raises_step; [apply never_value_error_assert|].
  never_raises_step; [apply never_value_error_y|]. never_raises_step.
Qed.

Lemma never_value_error_parity_from_point (P : option Point) :
  never_raises is_value_error (parity_from_point P).
Proof.
  unfold parity_from_point.
  never_raises_step; [apply never_value_error_assert|].
  never_raises_step; [apply never_value_error_has_even_y|]. never_raises_step.
Qed.

Create HintDb nve.

#[local] Hint Resolve never_value_error_assert never_value_error_x never_value_error_y
  never_value_error_bytes_from_int never_value_error_bytes_from_point
  never_value_error_has_even_y never_value_error_parity_from_point : nve.

Lemma never_value_error_pre_sign_nonce msg d0 aux_rand T :
  never_raises is_value_error (pre_sign_nonce msg d0 aux_rand T).
Proof.
  unfold pre_sign_nonce.
  repeat (never_raises_step; auto with nve).
Qed.

Lemma never_value_error_pre_sign_finish msg T P d k0 :
  never_raises is_value_error (pre_sign_finish msg T P d k0).
Proof.
  unfold pre_sign_finish.
  repeat (never_raises_step; auto with nve).
Qed.

(** The three checks of [schnorr_pre_sign], as a proposition. *)
Definition preconditions (msg seckey aux_rand : bytes) : Prop :=
  List.length msg = 32%nat /\
  1 <= int_from_bytes seckey <= n - 1 /\
  List.length aux_rand = 32%nat.

Lemma pre_sign_checks_pass msg seckey aux_rand T :
  preconditions msg seckey aux_rand ->
  schnorr_pre_sign msg seckey aux_rand T =
  r <- pre_sign_nonce msg (int_from_bytes seckey) aux_rand T ;;
  let '(P, d, k0) := r in pre_sign_finish msg T P d k0.
Proof.
  intros (Hm & Hd & Ha). unfold schnorr_pre_sign.
  rewrite Hm, Ha. cbn [Nat.eqb negb].
  replace (1 <=? int_from_bytes seckey) with true by (symmetry; apply Z.leb_le; lia).
  replace (int_from_bytes seckey <=? n - 1) with true by (symmetry; apply Z.leb_le; lia).
  reflexivity.
Qed.

Lemma pre_sign_bad_msg msg seckey aux_rand T :
  List.length msg <> 32%nat ->
  schnorr_pre_sign msg seckey aux_rand T = Raise ValueError_msg.
Proof.
  intro H. unfold schnorr_pre_sign.
  destruct (Nat.eqb_spec (List.length msg) 32); [contradiction | reflexivity].
Qed.

Lemma pre_sign_bad_seckey msg seckey aux_rand T :
  List.length msg = 32%nat -> ~ (1 <= int_from_bytes seckey <= n - 1) ->
  schnorr_pre_sign msg seckey aux_rand T = Raise ValueError_seckey.
Proof.
  intros Hm H. unfold schnorr_pre_sign. rewrite Hm. cbn [Nat.eqb negb].
  destruct (Z.leb_spec 1 (int_from_bytes seckey));
    destruct (Z.leb_spec (int_from_bytes seckey) (n - 1)); cbn [andb negb];
    try reflexivity. lia.
Qed.

Lemma pre_sign_bad_aux_rand msg seckey aux_rand T :
  List.length msg = 32%nat -> 1 <= int_from_bytes seckey <= n - 1 ->
  List.length aux_rand <> 32%nat ->
  schnorr_pre_sign msg seckey aux_rand T = Raise ValueError_aux_rand.
Proof.
  intros Hm Hd H. unfold schnorr_pre_sign. rewrite Hm. cbn [Nat.eqb negb].
  replace (1 <=? int_from_bytes seckey) with true by (symmetry; apply Z.leb_le; lia).
  replace (int_from_bytes seckey <=? n - 1) with true by (symmetry; apply Z.leb_le; lia).
  cbn [andb negb].
  destruct (Nat.eqb_spec (List.length aux_rand) 32); [contradiction | reflexivity].
Qed.

(** C2: [schnorr_pre_sign] raises a [ValueError] (and so returns no signature)
    exactly when one of its three checks fails; each check raises its own
    error, and each can be the only one that fails. *)
Theorem pre_sign_input_validation :
  (forall (msg seckey aux_rand : bytes) (T : option Point),
     (exists e, schnorr_pre_sign msg seckey aux_rand T = Raise e /\ is_value_error e = true)
     <-> ~ preconditions msg seckey aux_rand) /\
  (forall (msg seckey aux_rand : bytes) (T : option Point),
     (List.length msg <> 32%nat ->
      schnorr_pre_sign msg seckey aux_rand T = Raise ValueError_msg) /\
     (List.length msg = 32%nat -> ~ (1 <= int_from_bytes seckey <= n - 1) ->
      schnorr_pre_sign msg seckey aux_rand T = Raise ValueError_seckey) /\
     (List.length msg = 32%nat -> 1 <= int_from_bytes seckey <= n - 1 ->
      List.length aux_rand <> 32%nat ->
      schnorr_pre_sign msg seckey aux_rand T = Raise ValueError_aux_rand)) /\
  (exists msg seckey aux_rand : bytes,
     List.length msg <> 32%nat /\ 1 <= int_from_bytes seckey <= n - 1 /\
     List.length aux_rand = 32%nat) /\
  (exists msg seckey aux_rand : bytes,
     List.length msg = 32%nat /\ ~ (1 <= int_from_bytes seckey <= n - 1) /\
     List.length aux_rand = 32%nat) /\
  (exists msg seckey aux_rand : bytes,
     List.length msg = 32%nat /\ 1 <= int_from_bytes seckey <= n - 1 /\
     List.length aux_rand <> 32%nat).
Proof.
  split; [|split; [|split; [|split]]].
  - intros msg seckey aux_rand T. split.
    + intros (e & He & Hv) Hpre.
      rewrite (pre_sign_checks_pass _ _ _ T Hpre) in He.
      assert (never_raises is_value_error
                (r <- pre_sign_nonce msg (int_from_bytes seckey) aux_rand T ;;
                 let '(P, d, k0) := r in pre_sign_finish msg T P d k0)) as Hn.
      { apply never_raises_bind.
        - apply never_value_error_pre_sign_nonce.
        - intros [[P d] k0]. apply never_value_error_pre_sign_finish. }
      specialize (Hn e He). congruence.
    + intro Hpre. unfold preconditions in Hpre.
      destruct (Nat.eq_dec (List.length msg) 32) as [Hm|Hm].
      2: { exists ValueError_msg. split; [apply pre_sign_bad_msg; exact Hm | reflexivity]. }
      destruct (Z_le_dec 1 (int_from_bytes seckey)) as [H1|H1].
      2: { exists ValueError_seckey. split; [apply pre_sign_bad_seckey; [exact Hm | lia] | reflexivity]. }
      destruct (Z_le_dec (int_from_bytes seckey) (n - 1)) as [H2|H2].
      2: { exists ValueError_seckey. split; [apply pre_sign_bad_seckey; [exact Hm | lia] | reflexivity]. }
      destruct (Nat.eq_dec (List.length aux_rand) 32) as [Ha|Ha].
      { exfalso. apply Hpre. auto. }
      exists ValueError_aux_rand.
      split; [apply pre_sign_bad_aux_rand; auto | reflexivity].
  - intros msg seckey aux_rand T. split; [|split].
    + apply pre_sign_bad_msg.
    + apply pre_sign_bad_seckey.
    + apply pre_sign_bad_aux_rand.
  - exists (repeat x00 31), (be_bytes 32 1), (repeat x00 32).
    split; [vm_compute; congruence|]. split; [vm_compute; split; congruence | reflexivity].
  - exists (repeat x00 32), (be_bytes 32 0), (repeat x00 32).
    split; [reflexivity|]. split; [|reflexivity].
    change (int_from_bytes (be_bytes 32 0)) with 0. lia.
  - exists (repeat x00 32), (be_bytes 32 1), (repeat x00 31).
    split; [reflexivity|]. split; [vm_compute; split; congruence | vm_compute; congruence].
Qed.

(** ** The adaptor point at infinity *)

Lemma signing_exponent_range (d0 : Z) (even : bool) :
  1 <= d0 <= n - 1 -> 1 <= (if even then d0 else n - d0) <= n - 1.
Proof. destruct even; lia. Qed.

Lemma bytes_from_int_scalar (d : Z) :
  0 <= d <= n - 1 -> bytes_from_int d = Ok (be_bytes 32 d).
Proof. intro H. apply bytes_from_int_ok. pose proof n_lt_2_256. lia. Qed.

(** The steps of the nonce derivation that come before the serialization of
    [T] succeed as soon as the public point is finite. *)
Lemma pre_sign_nonce_reaches_T msg d0 aux_rand T (Q : Point) :
  1 <= d0 <= n - 1 ->
  point_mul (Some G) d0 = Some Q ->
  pre_sign_nonce msg d0 aux_rand T =
  let d := if snd Q mod 2 =? 0 then d0 else n - d0 in
  let t := xor_bytes (be_bytes 32 d) (tagged_hash "BIP0340/aux" aux_rand) in
  bT <- bytes_from_point T ;;
  bP <- bytes_from_point (Some Q) ;;
  let k0 := int_from_bytes (tagged_hash "BIP0340/nonce" (t ++ bT ++ bP ++ msg)) mod n in
  if k0 =? 0 then Raise RuntimeError_nonce else Ok (Some Q, d, k0).
Proof.
  intros Hd HQ. unfold pre_sign_nonce. rewrite HQ.
  change (assert (negb (is_infinite (Some Q)))) with (Ok tt).
  change (has_even_y (Some Q)) with (Ok (snd Q mod 2 =? 0)).
  cbn [bind]. cbv zeta.
  rewrite bytes_from_int_scalar
    by (pose proof (signing_exponent_range d0 (snd Q mod 2 =? 0) Hd); lia).
  reflexivity.
Qed.

(** C10: when the three checks pass and the adaptor point is the identity,
    [schnorr_pre_sign] stops on a failed [assert] (the one in [x], reached
    through [bytes_from_point T]); this is not one of its validation errors. *)
Theorem pre_sign_identity_adaptor_asserts msg seckey aux_rand :
  preconditions msg seckey aux_rand ->
  schnorr_pre_sign msg seckey aux_rand None = Raise AssertionError /\
  bytes_from_point None = Raise AssertionError /\
  is_value_error AssertionError = false /\
  (forall Q, point_mul (Some G) (int_from_bytes seckey) = Some Q ->
     forall T,
       pre_sign_nonce msg (int_from_bytes seckey) aux_rand T =
       let d := if snd Q mod 2 =? 0 then int_from_bytes seckey
                else n - int_from_bytes seckey in
       let t := xor_bytes (be_bytes 32 d) (tagged_hash "BIP0340/aux" aux_rand) in
       bT <- bytes_from_point T ;;
       bP <- bytes_from_point (Some Q) ;;
       let k0 := int_from_bytes (tagged_hash "BIP0340/nonce" (t ++ bT ++ bP ++ msg)) mod n in
       if k0 =? 0 then Raise RuntimeError_nonce else Ok (Some Q, d, k0)).
Proof.
  intro Hpre. pose proof Hpre as (Hm & Hd & Ha).
  split; [|split; [reflexivity|split; [reflexivity|]]].
  - rewrite (pre_sign_checks_pass _ _ _ None Hpre).
    destruct (point_mul (Some G) (int_from_bytes seckey)) as [Q|] eqn:HQ.
    + rewrite (pre_sign_nonce_reaches_T _ _ _ None Q Hd HQ). reflexivity.
    + unfold pre_sign_nonce. rewrite HQ. reflexivity.
  - intros Q HQ T. apply pre_sign_nonce_reaches_T; assumption.
Qed.

Lemma preconditions_example :
  preconditions (repeat x00 32) (be_bytes 32 1) (repeat x00 32).
Proof.
  unfold preconditions. split; [reflexivity|]. split; [|reflexivity].
  change (int_from_bytes (be_bytes 32 1)) with 1. unfold n. lia.
Qed.

Lemma pre_sign_identity_adaptor_asserts_witness :
  schnorr_pre_sign (repeat x00 32) (be_bytes 32 1) (repeat x00 32) None = Raise AssertionError.
Proof.
  apply (pre_sign_identity_adaptor_asserts _ _ _ preconditions_example).
Defined.

(** ** The verification stub *)

(** [b] with bit [j] of its byte number [i] flipped. *)
Fixpoint flip_bit (b : bytes) (i : nat) (j : Z) : bytes :=
  match b, i with
  | [], _ => []
  | c :: r, O => byte_of_Z (Z.lxor (Z_of_byte c) (Z.shiftl 1 j)) :: r
  | c :: r, S i' => c :: flip_bit r i' j
  end.

(** The three fields of a pre-signature. *)
Definition sig_parity (sig : bytes) : Z := int_from_bytes (firstn 1 sig).
Definition sig_R0_x (sig : bytes) : Z := int_from_bytes (firstn 32 (skipn 1 sig)).
Definition sig_s (sig : bytes) : Z := int_from_bytes (skipn 33 sig).

(** ** Scalar multiplication reads 256 bits *)

(** Bit [i] of [k], as the loop of [point_mul] tests it. *)
Definition bit_clear (k i : Z) : bool := Z.land (Z.shiftr k i) 1 =? 0.

Lemma point_mul_loop_clear_bits (k : Z) (l : list Z) (st : option Point * option Point) :
  forallb (bit_clear k) l = true ->
  fst (fold_left (point_mul_step k) l st) = fst st.
Proof.
  revert st. induction l as [|i l IH]; intros st H.
  - reflexivity.
  - cbn [forallb] in H. apply andb_true_iff in H. destruct H as [Hi Hl].
    cbn [fold_left]. rewrite (IH _ Hl).
    unfold point_mul_step. cbn [fst].
    unfold bit_clear in Hi. rewrite Hi. reflexivity.
Qed.

Lemma point_mul_clear_bits (P : option Point) (k : Z) :
  forallb (bit_clear k) (range 256) = true -> point_mul P k = None.
Proof.
  intro H. unfold point_mul.
  rewrite (point_mul_loop_clear_bits k (range 256) (None, P) H). reflexivity.
Qed.

Lemma point_mul_0 (P : option Point) : point_mul P 0 = None.
Proof. apply point_mul_clear_bits. vm_compute. reflexivity. Qed.

Lemma range_256_head : range 256 = 0 :: map Z.of_nat (seq 1 255).
Proof. reflexivity. Qed.

Lemma fold_left_head {A B : Type} (f : A -> B -> A) (b : B) (l : list B) (a : A) :
  fold_left f (b :: l) a = fold_left f l (f a b).
Proof. reflexivity. Qed.

Lemma point_mul_1 (P : option Point) : point_mul P 1 = P.
Proof.
  unfold point_mul. rewrite range_256_head, fold_left_head.
  rewrite point_mul_loop_clear_bits by (vm_compute; reflexivity).
  unfold point_mul_step. cbn [fst snd].
  change (Z.land (Z.shiftr 1 0) 1 =? 0) with false. reflexivity.
Qed.

(** A scalar that is 0 modulo [2^256] and [-1] modulo [n]. *)
Definition k_wrap : Z :=
  0x261776f29b6b106c7680cf3ed83054a17ef308902fa393ff3ed53bf94f9e812b * 2 ^ 256.

(** C6, as stated for all integers, fails: [point_mul] reads only the low 256
    bits of its scalar, so [k_wrap] counts as 0 although [k_wrap + 1] is a
    multiple of [n]. *)
Lemma point_mul_additive_all_integers_fails :
  point_mul (Some G) ((k_wrap + 1) mod n) <>
  point_add (point_mul (Some G) k_wrap) (point_mul (Some G) 1).
Proof.
  change ((k_wrap + 1) mod n) with 0.
  rewrite point_mul_0, point_mul_1.
  rewrite (point_mul_clear_bits (Some G) k_wrap) by (vm_compute; reflexivity).
  cbn [point_add]. discriminate.
Qed.

(** ** The verification stub accepts everything *)

Definition all_ff : bytes := repeat xff 65.

(** C1 at a failing input: the stub accepts a 65-byte string whose [R0.x]
    field is not a field element and lifts to no point, and whose [s] field
    is not a scalar. *)
Theorem pre_verify_accepts_malformed_signature :
  sig_R0_x all_ff >= p /\
  lift_x_R0 (sig_R0_x all_ff) (sig_parity all_ff) = None /\
  sig_s all_ff >= n /\
  schnorr_pre_verify (repeat x00 32) (Some G) (be_bytes 32 (fst G)) all_ff = true.
Proof.
  assert (sig_R0_x all_ff >= p) as H by (vm_compute; congruence).
  split; [exact H|]. split; [|split; [vm_compute; congruence | reflexivity]].
  apply lift_x_R0_rejects_large. exact H.
Qed.

(** The stub does not tell a signature from the same signature with a bit
    flipped. *)
Lemma pre_verify_ignores_bit_flips msg T pubkey sig i j :
  schnorr_pre_verify msg T pubkey (flip_bit sig i j) = schnorr_pre_verify msg T pubkey sig.
Proof. reflexivity. Qed.

(** * Further properties of the code *)

(** Modular exponentiation is only reasoned about through [pow_correct]. *)
Opaque pow.

(** ** Integers and their big-endian bytes *)

Lemma Z_of_byte_range (c : byte) : 0 <= Z_of_byte c < 256.
Proof.
  unfold Z_of_byte. pose proof (Byte.to_N_bounded c). lia.
Qed.

Lemma byte_of_Z_of_byte (c : byte) : byte_of_Z (Z_of_byte c) = c.
Proof.
  unfold byte_of_Z. rewrite Z.mod_small by apply Z_of_byte_range.
  unfold Z_of_byte. rewrite N2Z.id, Byte.of_to_N. reflexivity.
Qed.

Lemma Z_of_byte_of_Z (v : Z) : Z_of_byte (byte_of_Z v) = v mod 256.
Proof.
  unfold byte_of_Z, Z_of_byte.
  pose proof (Z.mod_pos_bound v 256 ltac:(lia)) as Hr.
  destruct (Byte.of_N (Z.to_N (v mod 256))) as [b|] eqn:E.
  - apply Byte.to_of_N in E. rewrite E. rewrite Z2N.id; lia.
  - apply Byte.of_N_None_iff in E. lia.
Qed.

Lemma int_from_bytes_acc (b : bytes) (acc : Z) :
  fold_left (fun a c => a * 256 + Z_of_byte c) b acc =
  acc * 256 ^ Z.of_nat (List.length b) + int_from_bytes b.
Proof.
  unfold int_from_bytes. revert acc.
  induction b as [|c b IH]; intro acc.
  - cbn [fold_left List.length]. change (256 ^ Z.of_nat 0) with 1. lia.
  - cbn [fold_left List.length]. rewrite IH. rewrite (IH (0 * 256 + Z_of_byte c)).
    rewrite Nat2Z.inj_succ, Z.pow_succ_r by lia. ring.
Qed.

Lemma int_from_bytes_app (a b : bytes) :
  int_from_bytes (a ++ b) =
  int_from_bytes a * 256 ^ Z.of_nat (List.length b) + int_from_bytes b.
Proof.
  unfold int_from_bytes at 1. rewrite fold_left_app.
  fold (int_from_bytes a). apply int_from_bytes_acc.
Qed.

Lemma int_from_bytes_snoc (a : bytes) (c : byte) :
  int_from_bytes (a ++ [c]) = int_from_bytes a * 256 + Z_of_byte c.
Proof.
  rewrite int_from_bytes_app. cbn [List.length].
  change (256 ^ Z.of_nat 1) with 256.
  change (int_from_bytes [c]) with (0 * 256 + Z_of_byte c). lia.
Qed.

Lemma int_from_bytes_range (b : bytes) :
  0 <= int_from_bytes b < 256 ^ Z.of_nat (List.length b).
Proof.
  induction b as [|c b IH] using rev_ind.
  - cbn. lia.
  - rewrite int_from_bytes_snoc, length_app. cbn [List.length].
    rewrite Nat2Z.inj_add, Z.pow_add_r by lia.
    change (256 ^ Z.of_nat 1) with 256.
    pose proof (Z_of_byte_range c). nia.
Qed.

Lemma int_from_be_bytes (len : nat) (v : Z) :
  int_from_bytes (be_bytes len v) = v mod 256 ^ Z.of_nat len.
Proof.
  revert v. induction len as [|l IH]; intro v.
  - cbn. rewrite Z.mod_1_r. reflexivity.
  - cbn [be_bytes]. rewrite int_from_bytes_snoc, IH, Z_of_byte_of_Z.
    rewrite Nat2Z.inj_succ, Z.pow_succ_r by lia.
    rewrite (Z.rem_mul_r v 256 (256 ^ Z.of_nat l)) by lia. ring.
Qed.

Lemma be_bytes_of_int (b : bytes) :
  be_bytes (List.length b) (int_from_bytes b) = b.
Proof.
  induction b as [|c b IH] using rev_ind.
  - reflexivity.
  - rewrite length_app. cbn [List.length]. rewrite Nat.add_1_r.
    cbn [be_bytes]. rewrite int_from_bytes_snoc.
    pose proof (Z_of_byte_range c) as Hc.
    replace ((int_from_bytes b * 256 + Z_of_byte c) / 256) with (int_from_bytes b)
      by (apply (Z.div_unique _ 256 _ (Z_of_byte c)); lia).
    rewrite IH. f_equal. f_equal.
    unfold byte_of_Z.
    replace ((int_from_bytes b * 256 + Z_of_byte c) mod 256) with (Z_of_byte c)
      by (apply (Z.mod_unique _ 256 (int_from_bytes b)); lia).
    unfold Z_of_byte. rewrite N2Z.id, Byte.of_to_N. reflexivity.
Qed.

Lemma bytes_from_int_overflow (v : Z) :
  ~ (0 <= v < 2 ^ 256) -> bytes_from_int v = Raise OverflowError.
Proof.
  intro H. unfold bytes_from_int.
  destruct (Z.leb_spec 0 v); destruct (Z.ltb_spec v (2 ^ 256)); cbn [andb];
    try reflexivity. lia.
Qed.

(** [bytes_from_int] accepts exactly the integers of [0, 2^256): it then
    returns 32 bytes that [int_from_bytes] reads back as the same integer;
    any other integer raises [OverflowError]. *)
Theorem bytes_from_int_round_trip (v : Z) :
  (0 <= v < 2 ^ 256 ->
   exists b, bytes_from_int v = Ok b /\ List.length b = 32%nat /\ int_from_bytes b = v) /\
  (~ (0 <= v < 2 ^ 256) -> bytes_from_int v = Raise OverflowError).
Proof.
  split.
  - intro H. exists (be_bytes 32 v).
    split; [apply bytes_from_int_ok; exact H|].
    split; [apply length_be_bytes|].
    rewrite int_from_be_bytes. change (256 ^ Z.of_nat 32) with (2 ^ 256).
    apply Z.mod_small. exact H.
  - intro H. unfold bytes_from_int.
    destruct (Z.leb_spec 0 v); destruct (Z.ltb_spec v (2 ^ 256)); cbn [andb];
      try reflexivity. lia.
Qed.

(** Every 32-byte string is the encoding of its own integer value:
    [bytes_from_int (int_from_bytes b)] gives [b] back. *)
Theorem int_from_bytes_round_trip (b : bytes) :
  List.length b = 32%nat -> bytes_from_int (int_from_bytes b) = Ok b.
Proof.
  intro H. pose proof (int_from_bytes_range b) as Hr. rewrite H in Hr.
  change (256 ^ Z.of_nat 32) with (2 ^ 256) in Hr.
  rewrite bytes_from_int_ok by exact Hr.
  rewrite <- H at 1. rewrite be_bytes_of_int. reflexivity.
Qed.

Lemma int_from_bytes_round_trip_witness :
  bytes_from_int (int_from_bytes (repeat xff 32)) = Ok (repeat xff 32).
Proof. apply (int_from_bytes_round_trip (repeat xff 32)). reflexivity. Defined.

Lemma int_from_bytes_zeros (k : nat) : int_from_bytes (repeat x00 k) = 0.
Proof.
  induction k as [|k IH].
  - reflexivity.
  - change (repeat x00 (S k)) with ([x00] ++ repeat x00 k).
    rewrite int_from_bytes_app, IH. reflexivity.
Qed.

Lemma int_from_bytes_leading_zeros (k : nat) (b : bytes) :
  int_from_bytes (repeat x00 k ++ b) = int_from_bytes b.
Proof. rewrite int_from_bytes_app, int_from_bytes_zeros. reflexivity. Qed.

(** The secret key is read as an integer whatever its length: leading zero
    bytes change neither the public key nor the pre-signature, and the empty
    key (the integer 0) is rejected by both routines. *)
Theorem seckey_leading_zeros_ignored (k : nat) (seckey msg aux_rand : bytes) (T : option Point) :
  pubkey_gen (repeat x00 k ++ seckey) = pubkey_gen seckey /\
  schnorr_pre_sign msg (repeat x00 k ++ seckey) aux_rand T =
  schnorr_pre_sign msg seckey aux_rand T /\
  pubkey_gen [] = Raise ValueError_seckey /\
  (List.length msg = 32%nat -> schnorr_pre_sign msg [] aux_rand T = Raise ValueError_seckey).
Proof.
  unfold pubkey_gen, schnorr_pre_sign.
  rewrite int_from_bytes_leading_zeros.
  split; [reflexivity|]. split; [reflexivity|]. split; [reflexivity|].
  intro H. rewrite H. reflexivity.
Qed.

(** ** [xor_bytes] *)

Lemma length_xor_bytes (b0 b1 : bytes) :
  List.length (xor_bytes b0 b1) = Nat.min (List.length b0) (List.length b1).
Proof.
  revert b1. induction b0 as [|c0 r0 IH]; intros [|c1 r1]; cbn [xor_bytes List.length];
    try reflexivity.
  rewrite IH. reflexivity.
Qed.

Lemma lxor_byte_range (a b : Z) :
  0 <= a < 256 -> 0 <= b < 256 -> 0 <= Z.lxor a b < 256.
Proof.
  intros Ha Hb.
  assert (0 <= Z.lxor a b) as Hnn by (apply Z.lxor_nonneg; lia).
  split; [exact Hnn|].
  destruct (Z.eq_dec (Z.lxor a b) 0) as [E|E]; [lia|].
  change 256 with (2 ^ 8). apply Z.log2_lt_pow2; [lia|].
  pose proof (Z.log2_lxor a b ltac:(lia) ltac:(lia)) as Hl.
  assert (forall v, 0 <= v < 256 -> Z.log2 v < 8) as Hlog.
  { intros v Hv. destruct (Z.eq_dec v 0) as [->|Hz]; [cbn; lia|].
    apply Z.log2_lt_pow2; [lia|]. change (2 ^ 8) with 256. lia. }
  pose proof (Hlog a Ha). pose proof (Hlog b Hb). lia.
Qed.

Lemma xor_byte_cancel (c0 c1 : byte) :
  byte_of_Z (Z.lxor (Z_of_byte (byte_of_Z (Z.lxor (Z_of_byte c0) (Z_of_byte c1))))
                    (Z_of_byte c1)) = c0.
Proof.
  rewrite Z_of_byte_of_Z.
  rewrite Z.mod_small by (apply lxor_byte_range; apply Z_of_byte_range).
  rewrite Z.lxor_assoc, Z.lxor_nilpotent, Z.lxor_0_r.
  apply byte_of_Z_of_byte.
Qed.

(** [xor_bytes] stops at the shorter operand, and on operands of one length
    masking twice with the same bytes gives the first operand back. *)
Theorem xor_bytes_involutive (b0 b1 : bytes) :
  List.length (xor_bytes b0 b1) = Nat.min (List.length b0) (List.length b1) /\
  (List.length b0 = List.length b1 -> xor_bytes (xor_bytes b0 b1) b1 = b0).
Proof.
  split; [apply length_xor_bytes|].
  revert b1. induction b0 as [|c0 r0 IH]; intros [|c1 r1] H; cbn [List.length] in H;
    try discriminate; cbn [xor_bytes].
  - reflexivity.
  - rewrite xor_byte_cancel. rewrite IH by (injection H as H; exact H). reflexivity.
Qed.

(** ** Hashing *)

(** [message_encode_32bytes(msg)]: the SHA-256 digest of the UTF-8 bytes. *)
Definition message_encode_32bytes (msg : string) : bytes := hash_sha256 (encode msg).

(** Digests are 32 bytes long and decode to an integer below [2^256]; a
    message made by [message_encode_32bytes] therefore always passes the
    length check of [schnorr_pre_sign]. *)
Theorem hashes_are_32_bytes (tag text : string) (m seckey aux_rand : bytes) (T : option Point) :
  List.length (hash_sha256 m) = 32%nat /\
  List.length (tagged_hash tag m) = 32%nat /\
  0 <= int_from_bytes (tagged_hash tag m) < 2 ^ 256 /\
  List.length (message_encode_32bytes text) = 32%nat /\
  schnorr_pre_sign (message_encode_32bytes text) seckey aux_rand T <> Raise ValueError_msg.
Proof.
  split; [apply length_hash_sha256|]. split; [apply length_tagged_hash|].
  split.
  { pose proof (int_from_bytes_range (tagged_hash tag m)) as H.
    rewrite length_tagged_hash in H. exact H. }
  split; [apply length_hash_sha256|].
  unfold schnorr_pre_sign, message_encode_32bytes. rewrite length_hash_sha256.
  cbn [Nat.eqb negb].
  destruct (negb ((1 <=? int_from_bytes seckey) && (int_from_bytes seckey <=? n - 1)));
    [discriminate|].
  destruct (negb (List.length aux_rand =? 32)%nat); [discriminate|].
  intro H.
  assert (never_raises is_value_error
            (r <- pre_sign_nonce (hash_sha256 (encode text)) (int_from_bytes seckey) aux_rand T ;;
             let '(P, d, k0) := r in
             pre_sign_finish (hash_sha256 (encode text)) T P d k0)) as Hn.
  { apply never_raises_bind.
    - apply never_value_error_pre_sign_nonce.
    - intros [[P d] k0]. apply never_value_error_pre_sign_finish. }
  specialize (Hn _ H). discriminate.
Qed.

Lemma sha256_abc :
  int_from_bytes (hash_sha256 (encode "abc")) =
  0xba7816bf8f01cfea414140de5dae2223b00361a396177a9cb410ff61f20015ad.
Proof. vm_compute. reflexivity. Qed.

Lemma sha256_empty :
  int_from_bytes (hash_sha256 []) =
  0xe3b0c44298fc1c149afbf4c8996fb92427ae41e4649b934ca495991b7852b855.
Proof. vm_compute. reflexivity. Qed.

Lemma sha256_two_blocks :
  int_from_bytes (hash_sha256
    (encode "abcdbcdecdefdefgefghfghighijhijkijkljklmklmnlmnomnopnopq")) =
  0x248d6a61d20638b8e5c026930c3e6039a33ce45964ff2167f6ecedd419db06c1.
Proof. vm_compute. reflexivity. Qed.

(** ** Coordinates stay field elements *)

(** The identity, or a point whose coordinates are both in [0, p). *)
Definition field_point (P : option Point) : Prop :=
  match P with
  | None => True
  | Some Q => 0 <= fst Q < p /\ 0 <= snd Q < p
  end.

Lemma mod_p_range (v : Z) : 0 <= v mod p < p.
Proof. apply Z.mod_pos_bound. exact p_pos. Qed.

Lemma point_add_reduced (P1 P2 : option Point) :
  field_point P1 -> field_point P2 -> field_point (point_add P1 P2).
Proof.
  intros H1 H2.
  destruct P1 as [[x1 y1]|]; [|exact H2].
  destruct P2 as [[x2 y2]|]; [|exact H1].
  unfold point_add.
  destruct ((x1 =? x2) && negb (y1 =? y2)); [exact I|].
  cbv zeta. unfold field_point. cbn [fst snd].
  split; apply mod_p_range.
Qed.

(** [point_add] keeps coordinates in [0, p): a sum of two points with
    reduced coordinates is the identity or has reduced coordinates. *)
Theorem point_add_field_point (P1 P2 : option Point) :
  field_point P1 -> field_point P2 -> field_point (point_add P1 P2).
Proof. exact (point_add_reduced P1 P2). Qed.

Lemma G_field_point : field_point (Some G).
Proof. unfold field_point, G, p. cbn [fst snd]. lia. Qed.

Lemma point_add_field_point_witness : field_point (point_add (Some G) None).
Proof.
  apply (point_add_field_point (Some G) None); [exact G_field_point | exact I].
Defined.

Lemma point_mul_step_field_point (k i : Z) (st : option Point * option Point) :
  field_point (fst st) -> field_point (snd st) ->
  field_point (fst (point_mul_step k st i)) /\ field_point (snd (point_mul_step k st i)).
Proof.
  intros HR HP. unfold point_mul_step. cbn [fst snd].
  split.
  - destruct (Z.land (Z.shiftr k i) 1 =? 0); [exact HR|].
    apply point_add_reduced; assumption.
  - apply point_add_reduced; assumption.
Qed.

Lemma point_mul_loop_field_point (k : Z) (l : list Z) (st : option Point * option Point) :
  field_point (fst st) -> field_point (snd st) ->
  field_point (fst (fold_left (point_mul_step k) l st)).
Proof.
  revert st. induction l as [|i l IH]; intros st HR HP.
  - exact HR.
  - rewrite fold_left_head.
    destruct (point_mul_step_field_point k i st HR HP) as [HR' HP'].
    apply IH; assumption.
Qed.

Lemma point_mul_reduced (P : option Point) (k : Z) :
  field_point P -> field_point (point_mul P k).
Proof.
  intro H. unfold point_mul. apply point_mul_loop_field_point; [exact I | exact H].
Qed.

(** [point_mul] keeps coordinates in [0, p), for every integer scalar. *)
Theorem point_mul_field_point (P : option Point) (k : Z) :
  field_point P -> field_point (point_mul P k).
Proof. exact (point_mul_reduced P  k). Qed.

Lemma point_mul_field_point_witness : field_point (point_mul (Some G) 5).
Proof. apply (point_mul_field_point (Some G) 5). exact G_field_point. Defined.

(** ** Scalars as [point_mul] reads them *)

Lemma bit_clear_testbit (k i : Z) : 0 <= i -> bit_clear k i = negb (Z.testbit k i).
Proof.
  intro Hi. unfold bit_clear. rewrite land_1_mod_2.
  rewrite <- Z.bit0_mod, Z.shiftr_spec by lia. rewrite Z.add_0_l.
  destruct (Z.testbit k i); reflexivity.
Qed.

Lemma fold_left_ext_in {A B : Type} (f g : A -> B -> A) (l : list B) (a : A) :
  (forall s b, In b l -> f s b = g s b) -> fold_left f l a = fold_left g l a.
Proof.
  revert a. induction l as [|b l IH]; intros a H.
  - reflexivity.
  - cbn [fold_left]. rewrite (H a b) by (left; reflexivity).
    apply IH. intros s b' Hb. apply H. right. exact Hb.
Qed.

Lemma range_bounds (len : nat) (i : Z) : In i (range len) -> 0 <= i < Z.of_nat len.
Proof.
  unfold range. intro H. apply in_map_iff in H. destruct H as (j & <- & Hj).
  apply in_seq in Hj. lia.
Qed.

(** [point_mul] reads only bits 0..255 of its scalar: any two integers that
    agree modulo [2^256] (negative ones included) give the same point. *)
Theorem point_mul_low_256_bits (P : option Point) (k : Z) :
  point_mul P k = point_mul P (k mod 2 ^ 256).
Proof.
  unfold point_mul.
  rewrite (fold_left_ext_in (point_mul_step k) (point_mul_step (k mod 2 ^ 256))
             (range 256) (None, P)); [reflexivity|].
  intros st i Hi. apply range_bounds in Hi. change (Z.of_nat 256) with 256 in Hi.
  unfold point_mul_step.
  fold (bit_clear k i). fold (bit_clear (k mod 2 ^ 256) i).
  rewrite !bit_clear_testbit by lia.
  rewrite Z.mod_pow2_bits_low by lia. reflexivity.
Qed.

Lemma point_mul_loop_identity (k : Z) (l : list Z) :
  fold_left (point_mul_step k) l (None, None) = (None, None).
Proof.
  induction l as [|i l IH].
  - reflexivity.
  - rewrite fold_left_head.
    replace (point_mul_step k (None, None) i) with (@None Point, @None Point);
      [exact IH|].
    unfold point_mul_step. cbn [fst snd point_add].
    destruct (Z.land (Z.shiftr k i) 1 =? 0); reflexivity.
Qed.

Lemma range_256_head2 : range 256 = 0 :: 1 :: map Z.of_nat (seq 2 254).
Proof. reflexivity. Qed.

(** Small scalars: 0 gives the identity, 1 the point itself, 2 its double;
    and every multiple of the identity is the identity. *)
Theorem point_mul_small_scalars (P : option Point) (k : Z) :
  point_mul P 0 = None /\
  point_mul P 1 = P /\
  point_mul P 2 = point_add P P /\
  point_mul None k = None.
Proof.
  split; [apply point_mul_0|]. split; [apply point_mul_1|]. split.
  - unfold point_mul. rewrite range_256_head2, !fold_left_head.
    rewrite point_mul_loop_clear_bits by (vm_compute; reflexivity).
    unfold point_mul_step. cbn [fst snd].
    change (Z.land (Z.shiftr 2 0) 1 =? 0) with true.
    change (Z.land (Z.shiftr 2 1) 1 =? 0) with false.
    reflexivity.
  - unfold point_mul. rewrite point_mul_loop_identity. reflexivity.
Qed.

(** ** What [lift_x] and [lift_x_R0] return *)

(** The candidate root computed by both functions. *)
Definition candidate_y (x0 : Z) : Z := pow ((pow x0 3 p + 7) mod p) ((p + 1) / 4) p.

Lemma candidate_y_range (x0 : Z) : 0 <= candidate_y x0 < p.
Proof. unfold candidate_y. apply pow_range. Qed.

Lemma lift_x_R0_inv (x0 parity : Z) (Q : Point) :
  lift_x_R0 x0 parity = Some Q ->
  x0 < p /\
  (candidate_y x0 * candidate_y x0) mod p = (x0 ^ 3 + 7) mod p /\
  Q = (x0, if parity =? 2
           then (if Z.land (candidate_y x0) 1 =? 0 then candidate_y x0 else p - candidate_y x0)
           else (if Z.land (candidate_y x0) 1 =? 0 then p - candidate_y x0 else candidate_y x0)).
Proof.
  unfold lift_x_R0, candidate_y.
  set (y_sq := (pow x0 3 p + 7) mod p).
  set (y0 := pow y_sq ((p + 1) / 4) p).
  assert (pow y0 2 p = y_sq -> (y0 * y0) mod p = (x0 ^ 3 + 7) mod p) as Hsq.
  { intro E. rewrite pow_correct in E by (unfold p; lia).
    rewrite <- Z.pow_2_r, E. unfold y_sq.
    rewrite pow_correct by (unfold p; lia).
    rewrite Z.add_mod_idemp_l by (unfold p; lia). reflexivity. }
  clearbody y0. clearbody y_sq.
  destruct (Z.geb_spec x0 p) as [Hge|Hlt]; [discriminate|].
  destruct (Z.eqb_spec (pow y0 2 p) y_sq) as [E|E]; cbn [negb]; [|discriminate].
  intro H. split; [exact Hlt|]. split; [exact (Hsq E)|].
  destruct (parity =? 2); apply Some_inj in H; symmetry; exact H.
Qed.

Lemma lift_x_is_lift_x_R0_2 (x0 : Z) : lift_x x0 = lift_x_R0 x0 2.
Proof. reflexivity. Qed.

Lemma neg_square_mod (v : Z) : ((p - v) * (p - v)) mod p = (v * v) mod p.
Proof.
  replace ((p - v) * (p - v)) with (v * v + (p - 2 * v) * p) by ring.
  apply Z.mod_add. unfold p. lia.
Qed.

Lemma odd_ge_1 (v : Z) : 0 <= v -> (Z.land v 1 =? 0) = false -> 1 <= v.
Proof.
  intros Hv H. destruct (Z.eq_dec v 0) as [->|Hz]; [discriminate H | lia].
Qed.

(** A point returned by [lift_x] for a non-negative [x] is a valid curve
    point with that x-coordinate: both coordinates are in [0, p) and
    y^2 = x^3 + 7 (mod p). *)
Theorem lift_x_on_curve (x0 : Z) (Q : Point) :
  0 <= x0 -> lift_x x0 = Some Q -> on_curve Q /\ fst Q = x0.
Proof.
  intros Hx H. rewrite lift_x_is_lift_x_R0_2 in H.
  apply lift_x_R0_inv in H. destruct H as (Hlt & Hsq & ->).
  change (2 =? 2) with true. cbv iota.
  pose proof (candidate_y_range x0) as Hy.
  generalize dependent (candidate_y x0). intros y0 Hsq Hy.
  unfold on_curve. cbn [fst snd].
  split; [|reflexivity]. split; [lia|].
  destruct (Z.land y0 1 =? 0) eqn:Ev.
  - split; [exact Hy | exact Hsq].
  - pose proof (odd_ge_1 y0 ltac:(lia) Ev). split; [lia|].
    rewrite neg_square_mod. exact Hsq.
Qed.

Lemma lift_x_G : lift_x (fst G) = Some G.
Proof. vm_compute. reflexivity. Qed.

Lemma lift_x_on_curve_witness : on_curve G /\ fst G = fst G.
Proof.
  apply (lift_x_on_curve (fst G) G); [unfold G; cbn [fst]; lia | exact lift_x_G].
Defined.

Lemma point_add_negate (A : Point) : point_add (Some A) (Some (negate A)) = None.
Proof.
  destruct A as [xa ya]. unfold point_add, negate. cbn [fst snd].
  rewrite Z.eqb_refl.
  destruct (Z.eqb_spec ya (p - ya)) as [E|E]; [|reflexivity].
  exfalso. unfold p in E. lia.
Qed.

Lemma negate_choice (c1 c2 : bool) (x0 y0 : Z) :
  (if c1 then None else if c2 then None
   else Some (x0, if Z.land y0 1 =? 0 then p - y0 else y0)) =
  option_map negate
    (if c1 then None else if c2 then None
     else Some (x0, if Z.land y0 1 =? 0 then y0 else p - y0)).
Proof.
  destruct c1; [reflexivity|]. destruct c2; [reflexivity|].
  cbn [option_map]. unfold negate. cbn [fst snd].
  destruct (Z.land y0 1 =? 0); [reflexivity|].
  replace (p - (p - y0)) with y0 by ring. reflexivity.
Qed.

Lemma lift_x_R0_3_negate (x0 : Z) : lift_x_R0 x0 3 = option_map negate (lift_x x0).
Proof.
  exact (negate_choice (x0 >=? p)
           (negb (pow (candidate_y x0) 2 p =? (pow x0 3 p + 7) mod p)) x0 (candidate_y x0)).
Qed.

(** The parity argument of [lift_x_R0] is not validated: every value other
    than 2 is treated as 3.  The point for parity 3 is the negation of the
    point for parity 2 (which is the point of [lift_x]), so the two add up to
    the identity. *)
Theorem lift_x_R0_parity (x0 parity : Z) :
  (parity <> 2 -> lift_x_R0 x0 parity = lift_x_R0 x0 3) /\
  lift_x_R0 x0 2 = lift_x x0 /\
  lift_x_R0 x0 3 = option_map negate (lift_x x0) /\
  point_add (lift_x_R0 x0 2) (lift_x_R0 x0 3) = None.
Proof.
  split; [|split; [reflexivity|split; [apply lift_x_R0_3_negate|]]].
  - intro H. unfold lift_x_R0.
    destruct (Z.eqb_spec parity 2) as [E|E]; [contradiction|]. reflexivity.
  - rewrite lift_x_R0_3_negate, <- lift_x_is_lift_x_R0_2.
    destruct (lift_x x0) as [Q|]; [|reflexivity].
    cbn [option_map]. apply point_add_negate.
Qed.

(** ** What [pubkey_gen] and [schnorr_pre_sign] can raise *)

Lemma Ok_inj {A : Type} (a b : A) : Ok a = Ok b -> a = b.
Proof. intro H. injection H as H. exact H. Qed.

Lemma never_raises_bind_ok (bad : exn -> bool) {A B : Type} (r : result A) (k : A -> result B) :
  never_raises bad r -> (forall a, r = Ok a -> never_raises bad (k a)) ->
  never_raises bad (bind r k).
Proof.
  intros Hr Hk. destruct r as [a|e]; cbn [bind].
  - apply Hk. reflexivity.
  - intros e' E. apply Hr. injection E as ->. reflexivity.
Qed.

(** The x-coordinate of a finite point fits 32 bytes. *)
Definition x_fits (P : option Point) : Prop :=
  match P with
  | None => True
  | Some Q => 0 <= fst Q < 2 ^ 256
  end.

Lemma field_point_x_fits (P : option Point) : field_point P -> x_fits P.
Proof.
  destruct P as [Q|]; [|trivial]. unfold field_point, x_fits.
  pose proof p_lt_2_256. lia.
Qed.

Lemma bytes_from_point_fits (Q : Point) :
  x_fits (Some Q) -> bytes_from_point (Some Q) = Ok (be_bytes 32 (fst Q)).
Proof.
  intro H. unfold bytes_from_point, x. cbn [bind].
  apply bytes_from_int_ok. exact H.
Qed.

(** [pubkey_gen] has three outcomes: the secret-key [ValueError] exactly when
    the key's integer is outside [1, n-1]; otherwise the 32-byte big-endian
    x-coordinate of [point_mul(G, d0)], or a failed [assert] should that point
    be the identity.  It never raises [OverflowError]; and the public key of
    the secret key 1 is the x-coordinate of [G]. *)
Theorem pubkey_gen_outcomes (seckey : bytes) :
  (~ (1 <= int_from_bytes seckey <= n - 1) -> pubkey_gen seckey = Raise ValueError_seckey) /\
  (1 <= int_from_bytes seckey <= n - 1 ->
   pubkey_gen seckey =
   match point_mul (Some G) (int_from_bytes seckey) with
   | Some Q => Ok (be_bytes 32 (fst Q))
   | None => Raise AssertionError
   end) /\
  pubkey_gen seckey <> Raise OverflowError /\
  pubkey_gen (be_bytes 32 1) = Ok (be_bytes 32 (fst G)).
Proof.
  assert (1 <= int_from_bytes seckey <= n - 1 ->
          pubkey_gen seckey =
          match point_mul (Some G) (int_from_bytes seckey) with
          | Some Q => Ok (be_bytes 32 (fst Q))
          | None => Raise AssertionError
          end) as Hin.
  { intro H. unfold pubkey_gen.
    replace (1 <=? int_from_bytes seckey) with true by (symmetry; apply Z.leb_le; lia).
    replace (int_from_bytes seckey <=? n - 1) with true by (symmetry; apply Z.leb_le; lia).
    cbn [andb negb]. cbv zeta.
    pose proof (point_mul_reduced (Some G) (int_from_bytes seckey) G_field_point) as HP.
    destruct (point_mul (Some G) (int_from_bytes seckey)) as [Q|]; [|reflexivity].
    cbn [is_infinite negb assert bind].
    apply bytes_from_point_fits, field_point_x_fits, HP. }
  assert (~ (1 <= int_from_bytes seckey <= n - 1) ->
          pubkey_gen seckey = Raise ValueError_seckey) as Hout.
  { intro H. unfold pubkey_gen.
    destruct (Z.leb_spec 1 (int_from_bytes seckey));
      destruct (Z.leb_spec (int_from_bytes seckey) (n - 1)); cbn [andb negb];
      try reflexivity. lia. }
  split; [exact Hout|]. split; [exact Hin|]. split.
  - destruct (Z_le_dec 1 (int_from_bytes seckey)) as [H1|H1];
      [destruct (Z_le_dec (int_from_bytes seckey) (n - 1)) as [H2|H2]|].
    + rewrite Hin by lia.
      destruct (point_mul (Some G) (int_from_bytes seckey)); discriminate.
    + rewrite Hout by lia. discriminate.
    + rewrite Hout by lia. discriminate.
  - unfold pubkey_gen.
    change (int_from_bytes (be_bytes 32 1)) with 1.
    change (negb ((1 <=? 1) && (1 <=? n - 1))) with false. cbv iota zeta.
    rewrite point_mul_1. reflexivity.
Qed.

(** Hashes are only reasoned about through their length. *)
Opaque tagged_hash.

Section NeverRaises.

Variable bad : exn -> bool.
Hypothesis bad_assert : bad AssertionError = false.
Hypothesis bad_nonce : bad RuntimeError_nonce = false.

Lemma nr_assert (c : bool) : never_raises bad (assert c).
Proof. unfold assert. destruct c; [apply never_raises_Ok | apply never_raises_Raise, bad_assert]. Qed.

Lemma nr_has_even_y (P : option Point) : never_raises bad (has_even_y P).
Proof.
  unfold has_even_y. apply never_raises_bind; [apply nr_assert|]. intros _.
  destruct P as [Q|]; cbn [y bind];
    [apply never_raises_Ok | apply never_raises_Raise, bad_assert].
Qed.

Lemma nr_parity_from_point (P : option Point) : never_raises bad (parity_from_point P).
Proof.
  unfold parity_from_point. apply never_raises_bind; [apply nr_assert|]. intros _.
  apply never_raises_bind; [apply nr_has_even_y|]. intro. apply never_raises_Ok.
Qed.

Lemma nr_bytes_from_int_fits (v : Z) : 0 <= v < 2 ^ 256 -> never_raises bad (bytes_from_int v).
Proof. intro H. rewrite bytes_from_int_ok by exact H. apply never_raises_Ok. Qed.

Lemma nr_bytes_from_point_fits (P : option Point) :
  x_fits P -> never_raises bad (bytes_from_point P).
Proof.
  intro H. destruct P as [Q|].
  - rewrite bytes_from_point_fits by exact H. apply never_raises_Ok.
  - apply never_raises_Raise, bad_assert.
Qed.

Lemma nr_pre_sign_nonce msg d0 aux_rand T :
  1 <= d0 <= n - 1 -> x_fits T ->
  never_raises bad (pre_sign_nonce msg d0 aux_rand T).
Proof.
  intros Hd HT. unfold pre_sign_nonce. cbv zeta.
  pose proof (point_mul_reduced (Some G) d0 G_field_point) as HP.
  apply field_point_x_fits in HP.
  generalize dependent (point_mul (Some G) d0). intros P HP.
  apply never_raises_bind; [apply nr_assert|]. intros _.
  apply never_raises_bind; [apply nr_has_even_y|]. intro even.
  apply never_raises_bind.
  { apply nr_bytes_from_int_fits.
    pose proof (signing_exponent_range d0 even Hd). pose proof n_lt_2_256. lia. }
  intro bd.
  apply never_raises_bind; [apply nr_bytes_from_point_fits, HT|]. intro bT.
  apply never_raises_bind; [apply nr_bytes_from_point_fits, HP|]. intro bP.
  apply never_raises_if; [apply never_raises_Raise, bad_nonce | apply never_raises_Ok].
Qed.

Lemma point_add_x_fits (R T : option Point) :
  field_point R -> x_fits T -> x_fits (point_add R T).
Proof.
  intros HR HT.
  destruct R as [[x1 y1]|]; [|exact HT].
  destruct T as [[x2 y2]|]; [|apply field_point_x_fits, HR].
  apply field_point_x_fits. unfold point_add.
  destruct ((x1 =? x2) && negb (y1 =? y2)); [exact I|].
  cbv zeta. unfold field_point. cbn [fst snd]. split; apply mod_p_range.
Qed.

Lemma nr_pre_sign_finish msg T P d k0 :
  x_fits T -> x_fits P ->
  never_raises bad (pre_sign_finish msg T P d k0).
Proof.
  intros HT HP. unfold pre_sign_finish. cbv zeta.
  pose proof (point_mul_reduced (Some G) k0 G_field_point) as HR.
  generalize dependent (point_mul (Some G) k0). intros R HR.
  pose proof (point_add_x_fits R T HR HT) as HR0.
  generalize dependent (point_add R T). intros R0 HR0.
  apply never_raises_bind; [apply nr_assert|]. intros _.
  apply never_raises_bind; [apply nr_has_even_y|]. intro even.
  apply never_raises_bind; [apply nr_bytes_from_point_fits, HR0|]. intro bR0.
  apply never_raises_bind; [apply nr_bytes_from_point_fits, HP|]. intro bP.
  apply never_raises_bind; [apply nr_parity_from_point|]. intro par.
  apply never_raises_bind; [apply nr_bytes_from_point_fits, HR0|]. intro bR0'.
  apply never_raises_bind.
  { apply nr_bytes_from_int_fits.
    pose proof (Z.mod_pos_bound
                  ((if negb even then n - k0 else k0) +
                   int_from_bytes (tagged_hash "BIP0340/challenge" (bR0 ++ bP ++ msg)) mod n * d)
                  n ltac:(reflexivity)) as Hs.
    pose proof n_lt_2_256. lia. }
  intro bs.
  apply never_raises_bind; [apply nr_bytes_from_point_fits, HP|]. intro bP'.
  unfold schnorr_pre_verify. cbn [negb]. apply never_raises_Ok.
Qed.

Lemma pre_sign_nonce_public_point msg d0 aux_rand T P d k0 :
  pre_sign_nonce msg d0 aux_rand T = Ok (P, d, k0) -> P = point_mul (Some G) d0.
Proof.
  unfold pre_sign_nonce. cbv zeta.
  generalize (point_mul (Some G) d0). intros P0 H.
  destruct (assert (negb (is_infinite P0))); cbn [bind] in H; [|discriminate].
  destruct (has_even_y P0) as [ev|]; cbn [bind] in H; [|discriminate].
  destruct (bytes_from_int (if ev then d0 else n - d0)) as [bd|]; cbn [bind] in H;
    [|discriminate].
  destruct (bytes_from_point T) as [bT|]; cbn [bind] in H; [|discriminate].
  destruct (bytes_from_point P0) as [bP|]; cbn [bind] in H; [|discriminate].
  match type of H with (if ?c then _ else _) = _ => destruct c end; [discriminate|].
  apply Ok_inj in H. apply (f_equal (fun t => fst (fst t))) in H.
  cbn [fst] in H. symmetry. exact H.
Qed.

Lemma nr_schnorr_pre_sign msg seckey aux_rand T :
  bad ValueError_msg = false -> bad ValueError_seckey = false ->
  bad ValueError_aux_rand = false -> x_fits T ->
  never_raises bad (schnorr_pre_sign msg seckey aux_rand T).
Proof.
  intros B1 B2 B3 HT. unfold schnorr_pre_sign.
  apply never_raises_if; [apply never_raises_Raise, B1|].
  cbv zeta.
  destruct (Z.leb_spec 1 (int_from_bytes seckey)) as [H1|H1]; cbn [andb negb];
    [|apply never_raises_Raise, B2].
  destruct (Z.leb_spec (int_from_bytes seckey) (n - 1)) as [H2|H2]; cbn [negb];
    [|apply never_raises_Raise, B2].
  apply never_raises_if; [apply never_raises_Raise, B3|].
  apply never_raises_bind_ok.
  - apply nr_pre_sign_nonce; [lia | exact HT].
  - intros [[P d] k0] E. apply pre_sign_nonce_public_point in E. subst P.
    apply nr_pre_sign_finish; [exact HT|].
    apply field_point_x_fits, point_mul_reduced, G_field_point.
Qed.

End NeverRaises.

Section NeverRaisesAny.

Variable bad : exn -> bool.
Hypothesis bad_assert : bad AssertionError = false.
Hypothesis bad_overflow : bad OverflowError = false.
Hypothesis bad_nonce : bad RuntimeError_nonce = false.

Lemma nr_bytes_from_int_any (v : Z) : never_raises bad (bytes_from_int v).
Proof.
  unfold bytes_from_int.
  apply never_raises_if; [apply never_raises_Ok | apply never_raises_Raise, bad_overflow].
Qed.

Lemma nr_bytes_from_point_any (P : option Point) : never_raises bad (bytes_from_point P).
Proof.
  destruct P as [Q|]; unfold bytes_from_point, x; cbn [bind].
  - apply nr_bytes_from_int_any.
  - apply never_raises_Raise, bad_assert.
Qed.

Lemma nr_pre_sign_nonce_any msg d0 aux_rand T :
  never_raises bad (pre_sign_nonce msg d0 aux_rand T).
Proof.
  unfold pre_sign_nonce. cbv zeta.
  generalize (point_mul (Some G) d0). intro P.
  apply never_raises_bind; [apply nr_assert, bad_assert|]. intros _.
  apply never_raises_bind; [apply nr_has_even_y, bad_assert|]. intro even.
  apply never_raises_bind; [apply nr_bytes_from_int_any|]. intro bd.
  apply never_raises_bind; [apply nr_bytes_from_point_any|]. intro bT.
  apply never_raises_bind; [apply nr_bytes_from_point_any|]. intro bP.
  apply never_raises_if; [apply never_raises_Raise, bad_nonce | apply never_raises_Ok].
Qed.

Lemma nr_pre_sign_finish_any msg T P d k0 :
  never_raises bad (pre_sign_finish msg T P d k0).
Proof.
  unfold pre_sign_finish. cbv zeta.
  generalize (point_mul (Some G) k0). intro R.
  generalize (point_add R T). intro R0.
  apply never_raises_bind; [apply nr_assert, bad_assert|]. intros _.
  apply never_raises_bind; [apply nr_has_even_y, bad_assert|]. intro even.
  apply never_raises_bind; [apply nr_bytes_from_point_any|]. intro bR0.
  apply never_raises_bind; [apply nr_bytes_from_point_any|]. intro bP.
  apply never_raises_bind; [apply nr_parity_from_point, bad_assert|]. intro par.
  apply never_raises_bind; [apply nr_bytes_from_point_any|]. intro bR0'.
  apply never_raises_bind; [apply nr_bytes_from_int_any|]. intro bs.
  apply never_raises_bind; [apply nr_bytes_from_point_any|]. intro bP'.
  unfold schnorr_pre_verify. cbn [negb]. apply never_raises_Ok.
Qed.

Lemma nr_schnorr_pre_sign_any msg seckey aux_rand T :
  bad ValueError_msg = false -> bad ValueError_seckey = false ->
  bad ValueError_aux_rand = false ->
  never_raises bad (schnorr_pre_sign msg seckey aux_rand T).
Proof.
  intros B1 B2 B3. unfold schnorr_pre_sign.
  apply never_raises_if; [apply never_raises_Raise, B1|].
  cbv zeta.
  apply never_raises_if; [apply never_raises_Raise, B2|].
  apply never_raises_if; [apply never_raises_Raise, B3|].
  apply never_raises_bind; [apply nr_pre_sign_nonce_any|].
  intros [[P d] k0]. apply nr_pre_sign_finish_any.
Qed.

End NeverRaisesAny.

Definition is_verify_error (e : exn) : bool :=
  match e with
  | RuntimeError_verify => true
  | _ => false
  end.

Definition is_overflow_error (e : exn) : bool :=
  match e with
  | OverflowError => true
  | _ => false
  end.

(** The self-check of [schnorr_pre_sign] is dead code: whatever the input,
    'The created signature does not pass verification.' is never raised.
    And when the x-coordinate of the adaptor point fits 32 bytes (or [T] is
    the identity), no [OverflowError] escapes either. *)
Theorem pre_sign_unreachable_errors (msg seckey aux_rand : bytes) (T : option Point) :
  schnorr_pre_sign msg seckey aux_rand T <> Raise RuntimeError_verify /\
  (x_fits T -> schnorr_pre_sign msg seckey aux_rand T <> Raise OverflowError).
Proof.
  split.
  - intro H.
    pose proof (nr_schnorr_pre_sign_any is_verify_error eq_refl eq_refl eq_refl
                  msg seckey aux_rand T eq_refl eq_refl eq_refl _ H) as C.
    discriminate C.
  - intros HT H.
    pose proof (nr_schnorr_pre_sign is_overflow_error eq_refl eq_refl
                  msg seckey aux_rand T eq_refl eq_refl eq_refl HT _ H) as C.
    discriminate C.
Qed.

(** The adaptor point is not validated: when the three checks pass and the
    public point is finite, a [T] whose x-coordinate is negative or needs more
    than 32 bytes makes [schnorr_pre_sign] stop with [OverflowError]. *)
Theorem pre_sign_adaptor_overflow (msg seckey aux_rand : bytes) (Q QT : Point) :
  preconditions msg seckey aux_rand ->
  point_mul (Some G) (int_from_bytes seckey) = Some Q ->
  ~ (0 <= fst QT < 2 ^ 256) ->
  schnorr_pre_sign msg seckey aux_rand (Some QT) = Raise OverflowError.
Proof.
  intros Hpre HQ HT. pose proof Hpre as (_ & Hd & _).
  rewrite (pre_sign_checks_pass _ _ _ _ Hpre).
  rewrite (pre_sign_nonce_reaches_T _ _ _ _ Q Hd HQ). cbv zeta.
  unfold bytes_from_point at 1. unfold x. cbn [bind].
  rewrite (bytes_from_int_overflow _ HT). reflexivity.
Qed.

Lemma pre_sign_adaptor_overflow_witness :
  schnorr_pre_sign (repeat x00 32) (be_bytes 32 1) (repeat x00 32) (Some (2 ^ 256, 0)) =
  Raise OverflowError.
Proof.
  apply (pre_sign_adaptor_overflow _ _ _ G (2 ^ 256, 0) preconditions_example).
  - change (int_from_bytes (be_bytes 32 1)) with 1. apply point_mul_1.
  - cbn [fst]. lia.
Defined.

(** * The coordinate field and the curve *)

(** ** Primality certificates

    Pocklington's criterion: [N] is prime when a part [F] of [N - 1] with
    [N < F * F] is a product of primes [q], each with a witness [a] such that
    [a ^ (N - 1) = 1] and [gcd (a ^ ((N - 1) / q) - 1, N) = 1] modulo [N]. *)

Module Primality.

Lemma divisor_search (m k : Z) :
  0 <= k ->
  (forall d, 1 < d < k -> ~ (d | m)) \/ (exists d, 1 < d < k /\ (d | m)).
Proof.
  revert k. apply natlike_ind.
  - left. intros d Hd. lia.
  - intros k Hk [Hnone|(d & Hd & Hdiv)].
    + destruct (Z_le_gt_dec k 1) as [Hk1|Hk1].
      * left. intros d Hd. lia.
      * destruct (Z.BoolSpec_divide_nz k m ltac:(lia)) as [Hyes|Hno].
        -- right. exists k. split; [lia | exact Hyes].
        -- left. intros d Hd. destruct (Z.eq_dec d k) as [->|Hne]; [exact Hno|].
           apply Hnone. lia.
    + right. exists d. split; [lia | exact Hdiv].
Qed.

Lemma prime_divisor_exists (m : Z) : 1 < m -> exists r, Z.prime r /\ (r | m).
Proof.
  intro Hm. assert (0 <= m) as H0 by lia. revert m H0 Hm.
  apply (Z_lt_induction (fun m => 1 < m -> exists r, Z.prime r /\ (r | m))).
  intros m IH Hm.
  destruct (divisor_search m m ltac:(lia)) as [Hnone|(d & Hd & Hdiv)].
  - exists m. split; [split; assumption | apply Z.divide_refl].
  - destruct (IH d ltac:(lia) ltac:(lia)) as (r & Hr & Hrd).
    exists r. split; [exact Hr | eapply Z.divide_trans; eassumption].
Qed.

Lemma small_prime_divisor (N d : Z) :
  1 < d < N -> (d | N) -> exists r, Z.prime r /\ (r | N) /\ r * r <= N.
Proof.
  intros Hd (e & He).
  assert (1 < e) as He1 by nia.
  destruct (Z_le_gt_dec d e) as [Hle|Hgt].
  - destruct (prime_divisor_exists d ltac:(lia)) as (r & Hr & Hrd).
    exists r. split; [exact Hr|]. split.
    + apply (Z.divide_trans _ d); [exact Hrd|]. exists e. lia.
    + pose proof (Z.prime_ge_2 _ Hr).
      assert (r <= d) by (apply Z.divide_pos_le; [lia | exact Hrd]). nia.
  - destruct (prime_divisor_exists e He1) as (r & Hr & Hre).
    exists r. split; [exact Hr|]. split.
    + apply (Z.divide_trans _ e); [exact Hre|]. exists d. lia.
    + pose proof (Z.prime_ge_2 _ Hr).
      assert (r <= e) by (apply Z.divide_pos_le; [lia | exact Hre]). nia.
Qed.

Lemma pow_mod_one (x r k : Z) : 1 < r -> 0 <= k -> x mod r = 1 -> x ^ k mod r = 1.
Proof.
  intros Hr Hk Hx. rewrite Zpower_mod by lia. rewrite Hx.
  rewrite Z.pow_1_l by lia. apply Z.mod_1_l. lia.
Qed.

Lemma mod_divide_mod (a r N : Z) : 0 < r -> 0 < N -> (r | N) -> (a mod N) mod r = a mod r.
Proof. intros Hr HN Hd. apply Z.mod_mod_divide. exact Hd. Qed.

(** The heart of Pocklington's criterion. *)
Lemma order_argument (N q a r : Z) :
  1 < N -> Z.prime q -> (q | N - 1) ->
  a ^ (N - 1) mod N = 1 ->
  Z.gcd (a ^ ((N - 1) / q) mod N - 1) N = 1 ->
  Z.prime r -> (r | N) -> (q | r - 1).
Proof.
  intros HN Hq Hqd Ha Hg Hr Hrd.
  pose proof (Z.prime_ge_2 _ Hq) as Hq2. pose proof (Z.prime_ge_2 _ Hr) as Hr2.
  destruct (Z.BoolSpec_divide_nz q (r - 1) ltac:(lia)) as [Hyes|Hno]; [exact Hyes|]. exfalso.
  set (M := (N - 1) / q).
  assert (N - 1 = q * M) as HM.
  { unfold M. destruct Hqd as (c & Hc). rewrite Hc, Z.div_mul by lia. ring. }
  assert (0 <= M) as HM0 by (unfold M; apply Z.div_pos; lia).
  assert (a ^ (N - 1) mod r = 1) as Har.
  { rewrite <- (mod_divide_mod _ r N) by (lia || exact Hrd). rewrite Ha.
    apply Z.mod_1_l. lia. }
  assert (a mod r <> 0) as Hanz.
  { intro E. rewrite Zpower_mod in Har by lia. rewrite E in Har.
    rewrite Z.pow_0_l in Har by lia. rewrite Z.mod_0_l in Har by lia. discriminate. }
  pose proof (Z.fermat_nz r a Hr Hanz) as Hf.
  (* u * q = 1 + t * (r - 1) with u, t >= 0 *)
  assert (Z.coprime q (r - 1)) as Hc.
  { apply Z.coprime_prime_l; assumption. }
  apply Z.gcd_bezout in Hc. destruct Hc as (u0 & v0 & Huv).
  set (u := u0 mod (r - 1) + (r - 1)).
  set (t := (1 - u0 / (r - 1)) * q - v0).
  assert (1 <= u) as Hu.
  { unfold u. pose proof (Z.mod_pos_bound u0 (r - 1) ltac:(lia)). lia. }
  assert (u * q = 1 + t * (r - 1)) as Ht.
  { assert (u * q - t * (r - 1) = u0 * q + v0 * (r - 1)) as E
      by (unfold u, t; rewrite Z.mod_eq by lia; ring).
    lia. }
  assert (0 <= t) as Ht0.
  { assert (0 < u * q) as Hpos by (apply Z.mul_pos_pos; lia).
    destruct (Z_lt_le_dec t 0) as [Hneg|Hok]; [exfalso | exact Hok].
    assert (t * (r - 1) <= (-1) * (r - 1)) as Hle
      by (apply Z.mul_le_mono_nonneg_r; lia).
    lia. }
  assert (0 <= t * M) as HtM by (apply Z.mul_nonneg_nonneg; assumption).
  assert (a ^ M mod r = 1) as HaM.
  { assert (a ^ (M * (u * q)) mod r = 1) as H1.
    { replace (M * (u * q)) with ((N - 1) * u) by (rewrite HM; ring).
      rewrite Z.pow_mul_r by lia.
      apply pow_mod_one; [lia | lia | exact Har]. }
    rewrite Ht in H1.
    replace (M * (1 + t * (r - 1))) with (M + (r - 1) * (t * M)) in H1 by ring.
    rewrite Z.pow_add_r in H1 by (try apply Z.mul_nonneg_nonneg; lia).
    rewrite Z.pow_mul_r in H1 by lia.
    rewrite Z.mul_mod in H1 by lia.
    rewrite (pow_mod_one (a ^ (r - 1)) r (t * M)) in H1 by (lia || exact Hf).
    rewrite Z.mul_1_r, Z.mod_mod in H1 by lia. exact H1. }
  assert (r | a ^ M mod N - 1) as Hdv.
  { apply Z.mod_divide; [lia|].
    rewrite Zminus_mod, mod_divide_mod by (lia || exact Hrd).
    rewrite HaM. rewrite Z.mod_1_l by lia. reflexivity. }
  assert (r | 1) as H1.
  { rewrite <- Hg. apply Z.gcd_greatest; assumption. }
  apply Z.divide_1_r in H1. lia.
Qed.

Definition product (l : list Z) : Z := fold_right Z.mul 1 l.

Fixpoint pairwise_coprime (l : list Z) : bool :=
  match l with
  | [] => true
  | q :: rest => (Z.gcd q (product rest) =? 1) && pairwise_coprime rest
  end.

Lemma coprime_product_divides (l : list Z) (m : Z) :
  pairwise_coprime l = true -> Forall (fun q => (q | m)) l -> (product l | m).
Proof.
  induction l as [|q rest IH]; intros Hc Hd.
  - apply Z.divide_1_l.
  - cbn [pairwise_coprime] in Hc. apply andb_true_iff in Hc. destruct Hc as [Hg Hc].
    apply Z.eqb_eq in Hg. inversion Hd as [|? ? Hq Hrest]; subst.
    specialize (IH Hc Hrest). cbn [product fold_right]. fold (product rest).
    destruct Hq as (c & Hcq). subst m.
    rewrite Z.mul_comm. apply Z.mul_divide_mono_r.
    apply (Z.gauss _ q); [rewrite Z.mul_comm; exact IH|].
    rewrite Z.gcd_comm. exact Hg.
Qed.

Lemma product_primes_pos (l : list Z) : Forall Z.prime l -> 0 < product l.
Proof.
  induction 1 as [|q rest Hq _ IH]; cbn [product fold_right]; [lia|].
  fold (product rest). pose proof (Z.prime_ge_2 _ Hq). nia.
Qed.

(** One entry of a certificate for [N]: a prime factor [q] of [N - 1] and a
    witness [a]. *)
Definition check_entry (N : Z) (e : Z * Z) : bool :=
  ((N - 1) mod fst e =? 0) &&
  (Zpow_mod (snd e) (N - 1) N =? 1) &&
  (Z.gcd (Zpow_mod (snd e) ((N - 1) / fst e) N - 1) N =? 1).

Definition check_certificate (N : Z) (cert : list (Z * Z)) : bool :=
  let F := product (map fst cert) in
  (1 <? N) && (N <? F * F) && pairwise_coprime (map fst cert) &&
  forallb (check_entry N) cert.

Theorem pocklington (N : Z) (cert : list (Z * Z)) :
  check_certificate N cert = true ->
  Forall Z.prime (map fst cert) ->
  Z.prime N.
Proof.
  unfold check_certificate. cbv zeta. intros Hc Hp.
  repeat (apply andb_true_iff in Hc; destruct Hc as [Hc ?]).
  apply Z.ltb_lt in Hc.
  match goal with H : (N <? _) = true |- _ => apply Z.ltb_lt in H; rename H into HF end.
  match goal with H : pairwise_coprime _ = true |- _ => rename H into Hco end.
  match goal with H : forallb _ _ = true |- _ => rename H into Hall end.
  split; [exact Hc|]. intros d Hd Hdd.
  destruct (small_prime_divisor N d Hd Hdd) as (r & Hr & Hrd & Hsq).
  pose proof (Z.prime_ge_2 _ Hr) as Hr2.
  assert (Forall (fun q => (q | r - 1)) (map fst cert)) as Hdiv.
  { rewrite forallb_forall in Hall. rewrite Forall_forall in Hp. apply Forall_forall.
    intros q Hq. pose proof (Hp q Hq) as Hqp.
    apply in_map_iff in Hq. destruct Hq as ([q' a] & Eq & Hin). cbn [fst] in Eq. subst q'.
    specialize (Hall _ Hin). unfold check_entry in Hall. cbn [fst snd] in Hall.
    apply andb_true_iff in Hall. destruct Hall as [Hall Hg].
    apply andb_true_iff in Hall. destruct Hall as [Hqd Ha].
    apply Z.eqb_eq in Hqd, Ha, Hg.
    pose proof (Z.prime_ge_2 _ Hqp).
    rewrite Zpow_mod_correct in Ha, Hg by lia.
    apply (order_argument N q a r); try assumption.
    apply Z.mod_divide; [lia | exact Hqd]. }
  pose proof (coprime_product_divides _ _ Hco Hdiv) as HFd.
  pose proof (product_primes_pos _ Hp) as Hpos.
  assert (product (map fst cert) <= r - 1) as Hle.
  { apply Z.divide_pos_le; [lia | exact HFd]. }
  clear - HF Hsq Hle Hpos Hr2.
  assert (product (map fst cert) * product (map fst cert) <= (r - 1) * (r - 1)) by nia.
  nia.
Qed.

(** Trial division, for the primes at the leaves. *)
Fixpoint no_divisor_from (fuel : nat) (d N : Z) : bool :=
  match fuel with
  | O => false
  | S f =>
    if N <? d * d then true
    else if N mod d =? 0 then false
    else no_divisor_from f (d + 1) N
  end.

Definition trial_division (N : Z) : bool :=
  (1 <? N) && no_divisor_from (S (Z.to_nat (Z.sqrt N))) 2 N.

Lemma no_divisor_from_sound (fuel : nat) (d N : Z) :
  1 < d -> no_divisor_from fuel d N = true ->
  forall k, d <= k -> k * k <= N -> ~ (k | N).
Proof.
  revert d. induction fuel as [|f IH]; intros d Hd H k Hk Hkk; [discriminate|].
  cbn [no_divisor_from] in H.
  destruct (Z.ltb_spec N (d * d)) as [Hlt|Hge]; [nia|].
  destruct (Z.eqb_spec (N mod d) 0) as [E|E]; [discriminate|].
  destruct (Z.eq_dec k d) as [->|Hne].
  - intro Hdiv. apply E. apply Z.mod_divide in Hdiv; [exact Hdiv | lia].
  - apply (IH (d + 1)); try lia. exact H.
Qed.

Lemma trial_division_sound (N : Z) : trial_division N = true -> Z.prime N.
Proof.
  unfold trial_division. intro H. apply andb_true_iff in H. destruct H as [H1 H2].
  apply Z.ltb_lt in H1.
  pose proof (no_divisor_from_sound _ 2 N ltac:(lia) H2) as Hnd.
  split; [exact H1|]. intros m Hm (c & Hc).
  assert (1 < c) by nia.
  destruct (Z_le_gt_dec m c) as [Hle|Hgt].
  - apply (Hnd m); [lia | nia | exists c; exact Hc].
  - apply (Hnd c); [lia | nia | exists m; lia].
Qed.

Definition f128 : Z := 255515944373312847190720520512484175977.
Definition f237 : Z := 205115282021455665897114700593932402728804164701536103180137503955397371.

Lemma prime_f128 : Z.prime f128.
Proof.
  apply (pocklington f128 [(96557, 2); (41201, 2); (4423, 2); (2657, 2); (1627, 2)]).
  - vm_compute. reflexivity.
  - repeat (apply Forall_cons; [apply trial_division_sound; vm_compute; reflexivity|]).
    apply Forall_nil.
Qed.

Lemma prime_f237 : Z.prime f237.
Proof.
  apply (pocklington f237 [(f128, 2)]).
  - vm_compute. reflexivity.
  - apply Forall_cons; [exact prime_f128 | apply Forall_nil].
Qed.

Lemma prime_p : Z.prime p.
Proof.
  apply (pocklington p [(f237, 2)]).
  - vm_compute. reflexivity.
  - apply Forall_cons; [exact prime_f237 | apply Forall_nil].
Qed.

End Primality.

(** ** The coordinate field *)

Lemma p_not_divide_small (v : Z) : 0 < v < p -> ~ (p | v).
Proof. intros Hv Hd. apply Z.divide_pos_le in Hd; lia. Qed.

Lemma p_not_divide_diff (a b : Z) : 0 <= a < p -> 0 <= b < p -> a <> b -> ~ (p | a - b).
Proof.
  intros Ha Hb Hne Hd.
  destruct (Z_lt_le_dec b a) as [Hlt|Hle].
  - apply (p_not_divide_small (a - b)); [lia | exact Hd].
  - apply (p_not_divide_small (b - a)); [lia|].
    replace (b - a) with (- (a - b)) by ring. apply Z.divide_opp_r. exact Hd.
Qed.

(** Congruence modulo [p]. *)
Definition cong (a b : Z) : Prop := (p | a - b).

Lemma cong_iff (a b : Z) : cong a b <-> a mod p = b mod p.
Proof.
  unfold cong. rewrite <- Z.mod_divide by (unfold p; lia).
  rewrite Z.cong_iff_0. reflexivity.
Qed.

Lemma cong_refl (a : Z) : cong a a.
Proof. unfold cong. rewrite Z.sub_diag. apply Z.divide_0_r. Qed.

Lemma cong_sym (a b : Z) : cong a b -> cong b a.
Proof. rewrite !cong_iff. intro H. symmetry. exact H. Qed.

Lemma cong_trans (a b c : Z) : cong a b -> cong b c -> cong a c.
Proof. rewrite !cong_iff. intros H1 H2. rewrite H1. exact H2. Qed.

Lemma cong_mod (a : Z) : cong (a mod p) a.
Proof. apply cong_iff. apply Z.mod_mod. unfold p. lia. Qed.

Lemma cong_add (a a' b b' : Z) : cong a a' -> cong b b' -> cong (a + b) (a' + b').
Proof.
  unfold cong. intros Ha Hb.
  replace (a + b - (a' + b')) with ((a - a') + (b - b')) by ring.
  apply Z.divide_add_r; assumption.
Qed.

Lemma cong_sub (a a' b b' : Z) : cong a a' -> cong b b' -> cong (a - b) (a' - b').
Proof.
  unfold cong. intros Ha Hb.
  replace (a - b - (a' - b')) with ((a - a') - (b - b')) by ring.
  apply Z.divide_sub_r; assumption.
Qed.

Lemma cong_mul (a a' b b' : Z) : cong a a' -> cong b b' -> cong (a * b) (a' * b').
Proof.
  unfold cong. intros Ha Hb.
  replace (a * b - a' * b') with ((a - a') * b + a' * (b - b')) by ring.
  apply Z.divide_add_r; [apply Z.divide_mul_l | apply Z.divide_mul_r]; assumption.
Qed.

Lemma cong_pow (a a' k : Z) : 0 <= k -> cong a a' -> cong (a ^ k) (a' ^ k).
Proof.
  intros Hk H. apply cong_iff. apply cong_iff in H.
  rewrite (Zpower_mod a), (Zpower_mod a') by (unfold p; lia).
  rewrite H. reflexivity.
Qed.

Lemma cong_pow_code (b e : Z) : cong (pow b e p) (b ^ e).
Proof. rewrite pow_correct by (unfold p; lia). apply cong_mod. Qed.

Lemma cong_not_divide (a : Z) : ~ (p | a) <-> a mod p <> 0.
Proof. rewrite <- Z.mod_divide by (unfold p; lia). reflexivity. Qed.

(** By Fermat's little theorem [pow(a, p - 2, p)], as [point_add] uses it, is
    the inverse of [a] modulo [p]. *)
Lemma pow_inverse (a : Z) : a mod p <> 0 -> (a * pow a (p - 2) p) mod p = 1.
Proof.
  intro Ha. rewrite pow_correct by (unfold p; lia).
  rewrite Z.mul_mod_idemp_r by (unfold p; lia).
  rewrite <- Z.pow_succ_r by (unfold p; lia).
  replace (Z.succ (p - 2)) with (p - 1) by lia.
  apply Z.fermat_nz; [exact Primality.prime_p | exact Ha].
Qed.

Lemma cong_inverse (a : Z) : ~ (p | a) -> cong (pow a (p - 2) p * a) 1.
Proof.
  intro Ha. apply cong_iff. rewrite Z.mul_comm.
  rewrite pow_inverse by (apply cong_not_divide; exact Ha).
  symmetry. apply Z.mod_1_l. unfold p. lia.
Qed.

(** The slope computed by [point_add], times its denominator, is the
    numerator. *)
Lemma slope_spec (num den : Z) :
  ~ (p | den) -> cong ((num * pow den (p - 2) p) mod p * den) num.
Proof.
  intro Hd.
  apply (cong_trans _ (num * pow den (p - 2) p * den)).
  - apply cong_mul; [apply cong_mod | apply cong_refl].
  - replace (num * pow den (p - 2) p * den) with (num * (pow den (p - 2) p * den)) by ring.
    replace num with (num * 1) at 2 by ring.
    apply cong_mul; [apply cong_refl | apply cong_inverse; exact Hd].
Qed.

Lemma cancel_factor (d v : Z) : ~ (p | d) -> (p | d * v) -> (p | v).
Proof.
  intros Hd H. apply (Z.divide_prime_mul _ _ _ Primality.prime_p) in H.
  destruct H as [H|H]; [contradiction | exact H].
Qed.

(** ** Points of the curve *)

(** The identity, or a valid point. *)
Definition curve_point (P : option Point) : Prop :=
  match P with
  | None => True
  | Some Q => on_curve Q
  end.

Lemma on_curve_cong (A : Point) : on_curve A -> cong (snd A * snd A) (fst A ^ 3 + 7).
Proof. intros (_ & _ & H). apply cong_iff. exact H. Qed.

Lemma minus_7_not_cube : pow (p - 7) ((p - 1) / 3) p <> 1.
Proof. vm_compute. discriminate. Qed.

(** No valid point has y = 0: -7 is not a cube modulo [p]. *)
Lemma on_curve_y_nonzero (A : Point) : on_curve A -> snd A <> 0.
Proof.
  intros (Hx & _ & H) Hy. rewrite Hy in H. change (0 * 0) with 0 in H.
  rewrite Z.mod_0_l in H by (unfold p; lia). symmetry in H.
  set (x0 := fst A) in *.
  assert (cong (x0 ^ 3) (p - 7)) as Hc.
  { unfold cong. replace (x0 ^ 3 - (p - 7)) with ((x0 ^ 3 + 7) + (-1) * p) by ring.
    apply Z.divide_add_r; [apply Z.mod_divide; [unfold p; lia | exact H]|].
    apply Z.divide_mul_r, Z.divide_refl. }
  assert (x0 mod p <> 0) as Hnz.
  { intro E. apply Z.mod_divide in E; [|unfold p; lia].
    apply Z.mod_divide in H; [|unfold p; lia].
    assert (p | 7) as H7.
    { replace 7 with ((x0 ^ 3 + 7) - x0 * (x0 * x0)) by ring.
      apply Z.divide_sub_r; [exact H | apply Z.divide_mul_l; exact E]. }
    apply Z.divide_pos_le in H7; [unfold p in H7; lia | lia]. }
  apply minus_7_not_cube.
  pose proof (Z.fermat_nz p x0 Primality.prime_p Hnz) as Hf.
  assert (p - 1 = 3 * ((p - 1) / 3)) as E3 by reflexivity.
  rewrite E3 in Hf. rewrite Z.pow_mul_r in Hf by (vm_compute; discriminate).
  rewrite pow_correct by (unfold p; lia).
  transitivity ((x0 ^ 3) ^ ((p - 1) / 3) mod p); [|exact Hf].
  apply cong_iff. apply cong_sym.
  apply cong_pow; [vm_compute; discriminate | exact Hc].
Qed.

(** The chord formula: the third point of the line through two curve points
    with different x. *)
Lemma chord_on_curve (x1 y1 x2 y2 lam : Z) :
  cong (y1 * y1) (x1 ^ 3 + 7) -> cong (y2 * y2) (x2 ^ 3 + 7) ->
  ~ (p | x2 - x1) -> cong (lam * (x2 - x1)) (y2 - y1) ->
  cong ((lam * (x1 - (lam * lam - x1 - x2)) - y1) * (lam * (x1 - (lam * lam - x1 - x2)) - y1))
       ((lam * lam - x1 - x2) ^ 3 + 7).
Proof.
  unfold cong. intros H1 H2 Hd Hl.
  apply (cancel_factor (x2 - x1)); [exact Hd|].
  match goal with |- (_ | ?g) =>
    replace g with
      ((y1 * y1 - (x1 ^ 3 + 7)) * (x2 - (lam * lam - x1 - x2)) +
       ((y2 * y2 - (x2 ^ 3 + 7)) +
        (lam * (x2 - x1) - (y2 - y1)) * (lam * (x2 - x1) + y1 + y2)) *
       ((lam * lam - x1 - x2) - x1)) by ring
  end.
  apply Z.divide_add_r; [apply Z.divide_mul_l; exact H1|].
  apply Z.divide_mul_l. apply Z.divide_add_r; [exact H2|].
  apply Z.divide_mul_l. exact Hl.
Qed.

(** The tangent formula. *)
Lemma tangent_on_curve (x1 y1 lam : Z) :
  cong (y1 * y1) (x1 ^ 3 + 7) -> cong (lam * (2 * y1)) (3 * x1 * x1) ->
  cong ((lam * (x1 - (lam * lam - x1 - x1)) - y1) * (lam * (x1 - (lam * lam - x1 - x1)) - y1))
       ((lam * lam - x1 - x1) ^ 3 + 7).
Proof.
  unfold cong. intros H1 Hl.
  match goal with |- (_ | ?g) =>
    replace g with
      ((y1 * y1 - (x1 ^ 3 + 7)) +
       (lam * (2 * y1) - 3 * x1 * x1) * ((lam * lam - x1 - x1) - x1)) by ring
  end.
  apply Z.divide_add_r; [exact H1|]. apply Z.divide_mul_l. exact Hl.
Qed.

Lemma result_on_curve (x1 y1 lam X : Z) :
  cong ((lam * (x1 - X) - y1) * (lam * (x1 - X) - y1)) (X ^ 3 + 7) ->
  on_curve (X mod p, (lam * (x1 - X mod p) - y1) mod p).
Proof.
  intro H. unfold on_curve. cbn [fst snd].
  split; [apply mod_p_range|]. split; [apply mod_p_range|].
  apply cong_iff.
  apply (cong_trans _ ((lam * (x1 - X) - y1) * (lam * (x1 - X) - y1))).
  - assert (cong ((lam * (x1 - X mod p) - y1) mod p) (lam * (x1 - X) - y1)) as Hy.
    { apply (cong_trans _ (lam * (x1 - X mod p) - y1)); [apply cong_mod|].
      apply cong_sub; [|apply cong_refl].
      apply cong_mul; [apply cong_refl|].
      apply cong_sub; [apply cong_refl | apply cong_mod]. }
    apply cong_mul; exact Hy.
  - apply (cong_trans _ (X ^ 3 + 7)); [exact H|].
    apply cong_sym. apply cong_add; [|apply cong_refl].
    apply cong_pow; [lia | apply cong_mod].
Qed.

Lemma point_add_curve_point (P1 P2 : option Point) :
  curve_point P1 -> curve_point P2 -> curve_point (point_add P1 P2).
Proof.
  intros H1 H2.
  destruct P1 as [[x1 y1]|]; [|exact H2].
  destruct P2 as [[x2 y2]|]; [|exact H1].
  cbn [curve_point] in H1, H2.
  pose proof (on_curve_cong _ H1) as C1. pose proof (on_curve_cong _ H2) as C2.
  pose proof (on_curve_y_nonzero _ H1) as Hy1.
  destruct H1 as (Hx1 & Hy1r & _). destruct H2 as (Hx2 & Hy2r & _).
  cbn [fst snd] in *.
  unfold point_add.
  destruct (Z.eqb_spec x1 x2) as [Ex|Ex]; cbn [andb].
  - destruct (Z.eqb_spec y1 y2) as [Ey|Ey]; cbn [negb]; [|exact I].
    subst x2 y2. cbv zeta. cbn [curve_point].
    apply result_on_curve. apply tangent_on_curve; [exact C1|].
    apply slope_spec.
    intro Hd. apply (Z.divide_prime_mul _ _ _ Primality.prime_p) in Hd.
    destruct Hd as [Hd|Hd].
    + apply Z.divide_pos_le in Hd; [unfold p in Hd; lia | lia].
    + apply (p_not_divide_small y1); [lia | exact Hd].
  - cbv zeta. cbn [curve_point].
    apply result_on_curve. apply (chord_on_curve x1 y1 x2 y2); [exact C1 | exact C2 | |].
    + apply p_not_divide_diff; [exact Hx2 | exact Hx1 | congruence].
    + apply slope_spec. apply p_not_divide_diff; [exact Hx2 | exact Hx1 | congruence].
Qed.

Lemma point_mul_loop_curve_point (k : Z) (l : list Z) (st : option Point * option Point) :
  curve_point (fst st) -> curve_point (snd st) ->
  curve_point (fst (fold_left (point_mul_step k) l st)).
Proof.
  revert st. induction l as [|i l IH]; intros st HR HP.
  - exact HR.
  - rewrite fold_left_head. apply IH; unfold point_mul_step; cbn [fst snd].
    + destruct (Z.land (Z.shiftr k i) 1 =? 0); [exact HR|].
      apply point_add_curve_point; assumption.
    + apply point_add_curve_point; assumption.
Qed.

Lemma point_mul_curve_point (P : option Point) (k : Z) :
  curve_point P -> curve_point (point_mul P k).
Proof.
  intro H. unfold point_mul. apply point_mul_loop_curve_point; [exact I | exact H].
Qed.

(** ** Square roots and decompression *)

Lemma fermat_cong (v : Z) : ~ (p | v) -> cong (v ^ (p - 1)) 1.
Proof.
  intro H. apply cong_iff.
  rewrite (Z.fermat_nz p v Primality.prime_p) by (apply cong_not_divide; exact H).
  symmetry. apply Z.mod_1_l. unfold p. lia.
Qed.

(** [p = 3 (mod 4)], so raising a square to [(p + 1) / 4] gives one of its
    square roots. *)
Lemma candidate_square (x0 z : Z) :
  cong (z * z) (x0 ^ 3 + 7) -> cong (candidate_y x0 * candidate_y x0) (z * z).
Proof.
  intro C. unfold candidate_y.
  assert (cong ((pow x0 3 p + 7) mod p) (z * z)) as Hsq.
  { apply (cong_trans _ (pow x0 3 p + 7)); [apply cong_mod|].
    apply (cong_trans _ (x0 ^ 3 + 7)); [|apply cong_sym; exact C].
    apply cong_add; [apply cong_pow_code | apply cong_refl]. }
  generalize dependent ((pow x0 3 p + 7) mod p). intros y_sq Hsq.
  assert (0 <= (p + 1) / 4) as He by (vm_compute; discriminate).
  assert (cong (pow y_sq ((p + 1) / 4) p) ((z * z) ^ ((p + 1) / 4))) as Hc.
  { apply (cong_trans _ (y_sq ^ ((p + 1) / 4))); [apply cong_pow_code|].
    apply cong_pow; [exact He | exact Hsq]. }
  apply (cong_trans _ ((z * z) ^ ((p + 1) / 4) * (z * z) ^ ((p + 1) / 4)));
    [apply cong_mul; exact Hc|].
  rewrite <- Z.pow_add_r by exact He.
  replace ((p + 1) / 4 + (p + 1) / 4) with ((p - 1) / 2 + 1) by reflexivity.
  rewrite Z.pow_add_r, Z.pow_1_r by (vm_compute; discriminate).
  replace (z * z) with (z * z * 1) at 3 by ring.
  rewrite (Z.mul_comm (_ ^ _)).
  destruct (Z.BoolSpec_divide_nz p z ltac:(unfold p; lia)) as [Hz|Hz].
  - apply (cong_trans _ 0).
    + replace 0 with (0 * ((z * z) ^ ((p - 1) / 2))) by ring.
      apply cong_mul; [|apply cong_refl].
      unfold cong. rewrite Z.sub_0_r. apply Z.divide_mul_l. exact Hz.
    + apply cong_sym. unfold cong. rewrite Z.sub_0_r.
      apply Z.divide_mul_l, Z.divide_mul_l. exact Hz.
  - apply cong_mul; [apply cong_refl|].
    rewrite <- Z.pow_2_r, <- Z.pow_mul_r by (vm_compute; discriminate || lia).
    replace (2 * ((p - 1) / 2)) with (p - 1) by reflexivity.
    apply fermat_cong. exact Hz.
Qed.

Lemma square_roots (a b : Z) :
  0 <= a < p -> 0 < b < p -> cong (a * a) (b * b) -> a = b \/ a = p - b.
Proof.
  intros Ha Hb H. unfold cong in H.
  replace (a * a - b * b) with ((a - b) * (a + b)) in H by ring.
  apply (Z.divide_prime_mul _ _ _ Primality.prime_p) in H. destruct H as [H|H].
  - left. destruct (Z.eq_dec a b) as [E|E]; [exact E|].
    exfalso. apply (p_not_divide_diff a b); [exact Ha | lia | exact E | exact H].
  - right. destruct H as (c & Hc). assert (c = 1) by nia. subst c. lia.
Qed.

Lemma lift_x_R0_check (x0 z : Z) :
  cong (z * z) (x0 ^ 3 + 7) ->
  pow (candidate_y x0) 2 p = (pow x0 3 p + 7) mod p.
Proof.
  intro C. rewrite pow_correct by (unfold p; lia).
  rewrite Z.pow_2_r.
  transitivity ((z * z) mod p); [apply cong_iff, candidate_square; exact C|].
  transitivity ((x0 ^ 3 + 7) mod p); [apply cong_iff; exact C|].
  rewrite pow_correct by (unfold p; lia).
  rewrite Z.add_mod_idemp_l by (unfold p; lia). reflexivity.
Qed.

Lemma lift_x_R0_unfold (x0 parity : Z) :
  lift_x_R0 x0 parity =
  if x0 >=? p then None
  else if negb (pow (candidate_y x0) 2 p =? (pow x0 3 p + 7) mod p) then None
  else if parity =? 2
       then Some (x0, if Z.land (candidate_y x0) 1 =? 0 then candidate_y x0 else p - candidate_y x0)
       else Some (x0, if Z.land (candidate_y x0) 1 =? 0 then p - candidate_y x0 else candidate_y x0).
Proof. reflexivity. Qed.

Lemma lift_x_R0_of_point (x0 y0 : Z) :
  on_curve (x0, y0) ->
  lift_x_R0 x0 (if y0 mod 2 =? 0 then 2 else 3) = Some (x0, y0).
Proof.
  intro H. pose proof (on_curve_cong _ H) as C. pose proof (on_curve_y_nonzero _ H) as Hnz.
  destruct H as (Hx & Hy & _). cbn [fst snd] in *.
  rewrite lift_x_R0_unfold.
  destruct (Z.geb_spec x0 p) as [Hge|_]; [lia|].
  rewrite (lift_x_R0_check x0 y0 C), Z.eqb_refl. cbn [negb].
  pose proof (candidate_y_range x0) as Hr.
  pose proof (square_roots (candidate_y x0) y0 Hr ltac:(lia) (candidate_square x0 y0 C)) as Hroot.
  rewrite land_1_mod_2.
  generalize dependent (candidate_y x0). intros c Hr Hroot.
  clear C. unfold p in *.
  destruct (Z.eqb_spec (y0 mod 2) 0) as [Ey|Ey];
    [change (2 =? 2) with true | change (3 =? 2) with false]; cbv iota;
    destruct (Z.eqb_spec (c mod 2) 0) as [Ec|Ec]; f_equal; f_equal;
    Z.div_mod_to_equations; lia.
Qed.

Lemma lift_x_complete (x0 : Z) :
  lift_x x0 = None <-> (p <= x0 \/ ~ quadratic_residue (x0 ^ 3 + 7)).
Proof.
  rewrite lift_x_is_lift_x_R0_2, lift_x_R0_unfold. change (2 =? 2) with true. cbv iota.
  destruct (Z.geb_spec x0 p) as [Hge|Hlt].
  - split; [intros _; left; lia | reflexivity].
  - destruct (Z.eqb_spec (pow (candidate_y x0) 2 p) ((pow x0 3 p + 7) mod p)) as [E|E];
      cbn [negb].
    + split; [discriminate|]. intros [Hge|Hn]; [lia|]. exfalso. apply Hn.
      apply (lift_x_check x0). exact E.
    + split; [|reflexivity]. intros _. right. intros (z & Hz). apply E.
      apply (lift_x_R0_check x0 z). apply cong_iff. exact Hz.
Qed.

(** ** Commutativity of [point_add] *)

Lemma reduced_cong_eq (a b : Z) : 0 <= a < p -> 0 <= b < p -> cong a b -> a = b.
Proof.
  intros Ha Hb H. destruct (Z.eq_dec a b) as [E|E]; [exact E|].
  exfalso. exact (p_not_divide_diff a b Ha Hb E H).
Qed.

Lemma slope_symmetric (x1 y1 x2 y2 : Z) :
  ~ (p | x2 - x1) ->
  ((y2 - y1) * pow (x2 - x1) (p - 2) p) mod p = ((y1 - y2) * pow (x1 - x2) (p - 2) p) mod p.
Proof.
  intro Hd.
  assert (~ (p | x1 - x2)) as Hd'.
  { intro H. apply Hd. replace (x2 - x1) with (- (x1 - x2)) by ring.
    apply Z.divide_opp_r. exact H. }
  pose proof (slope_spec (y2 - y1) (x2 - x1) Hd) as H1.
  pose proof (slope_spec (y1 - y2) (x1 - x2) Hd') as H2.
  apply reduced_cong_eq; [apply mod_p_range | apply mod_p_range|].
  generalize dependent (((y2 - y1) * pow (x2 - x1) (p - 2) p) mod p). intros l1 H1.
  generalize dependent (((y1 - y2) * pow (x1 - x2) (p - 2) p) mod p). intros l2 H2.
  unfold cong in *. apply (cancel_factor (x2 - x1)); [exact Hd|].
  replace ((x2 - x1) * (l1 - l2))
    with ((l1 * (x2 - x1) - (y2 - y1)) + (l2 * (x1 - x2) - (y1 - y2))) by ring.
  apply Z.divide_add_r; assumption.
Qed.

Lemma point_add_comm_reduced (P1 P2 : option Point) :
  field_point P1 -> field_point P2 -> point_add P1 P2 = point_add P2 P1.
Proof.
  intros H1 H2.
  destruct P1 as [[x1 y1]|]; destruct P2 as [[x2 y2]|]; try reflexivity.
  cbn [field_point fst snd] in H1, H2.
  unfold point_add.
  rewrite (Z.eqb_sym x2 x1), (Z.eqb_sym y2 y1).
  destruct (Z.eqb_spec x1 x2) as [Ex|Ex]; cbn [andb].
  - destruct (Z.eqb_spec y1 y2) as [Ey|Ey]; cbn [negb]; [|reflexivity].
    subst x2 y2. reflexivity.
  - cbv zeta.
    assert (~ (p | x2 - x1)) as Hd by (apply p_not_divide_diff; [lia | lia | congruence]).
    rewrite <- (slope_symmetric x1 y1 x2 y2 Hd).
    pose proof (slope_spec (y2 - y1) (x2 - x1) Hd) as Hl.
    generalize dependent (((y2 - y1) * pow (x2 - x1) (p - 2) p) mod p). intros lam Hl.
    replace (lam * lam - x2 - x1) with (lam * lam - x1 - x2) by ring.
    f_equal. f_equal.
    apply cong_iff. unfold cong in *.
    match goal with |- (_ | ?g) =>
      replace g with ((-1) * (lam * (x2 - x1) - (y2 - y1))) by ring
    end.
    apply Z.divide_mul_r. exact Hl.
Qed.

(** ** Properties of the field and curve operations *)

(** The modulus [p] is prime, and [pow(a, p - 2, p)], the expression
    [point_add] divides with, is the inverse of [a] modulo [p] whenever [a] is
    not a multiple of [p]. *)
Theorem field_inverse (a : Z) :
  a mod p <> 0 -> Z.prime p /\ (a * pow a (p - 2) p) mod p = 1.
Proof.
  intro H. split; [exact Primality.prime_p | apply pow_inverse; exact H].
Qed.

Lemma field_inverse_witness : Z.prime p /\ (2 * pow 2 (p - 2) p) mod p = 1.
Proof. apply (field_inverse 2). vm_compute. discriminate. Defined.

(** [point_add] stays on the curve: the sum of two valid points (or the
    identity) is the identity or a valid point. *)
Theorem point_add_on_curve (P1 P2 : option Point) :
  curve_point P1 -> curve_point P2 -> curve_point (point_add P1 P2).
Proof. exact (point_add_curve_point P1 P2). Qed.

Lemma point_add_on_curve_witness : curve_point (point_add (Some G) (Some G)).
Proof. apply (point_add_on_curve (Some G) (Some G)); exact G_on_curve. Defined.

(** [point_mul] stays on the curve, for every integer scalar. *)
Theorem point_mul_on_curve (P : option Point) (k : Z) :
  curve_point P -> curve_point (point_mul P k).
Proof. exact (point_mul_curve_point P k). Qed.

Lemma point_mul_on_curve_witness : curve_point (point_mul (Some G) 5).
Proof. apply (point_mul_on_curve (Some G) 5). exact G_on_curve. Defined.

(** [point_add] is commutative on points with reduced coordinates. *)
Theorem point_add_comm (P1 P2 : option Point) :
  field_point P1 -> field_point P2 -> point_add P1 P2 = point_add P2 P1.
Proof. exact (point_add_comm_reduced P1 P2). Qed.

Lemma point_add_comm_witness :
  point_add (Some G) (Some (1, 2)) = point_add (Some (1, 2)) (Some G).
Proof.
  apply (point_add_comm (Some G) (Some (1, 2))); [exact G_field_point|].
  unfold field_point, p. cbn [fst snd]. lia.
Defined.

(** A point returned by [lift_x_R0] for a non-negative [x] is a valid point
    with that x-coordinate, its y-coordinate is not 0, and it is even exactly
    when the requested parity is 2. *)
Theorem lift_x_R0_requested_parity (x0 parity : Z) (Q : Point) :
  0 <= x0 -> lift_x_R0 x0 parity = Some Q ->
  on_curve Q /\ fst Q = x0 /\ 0 < snd Q /\ (snd Q mod 2 = 0 <-> parity = 2).
Proof.
  intros Hx H. apply lift_x_R0_inv in H. destruct H as (Hlt & Hsq & ->).
  pose proof (candidate_y_range x0) as Hr.
  assert (on_curve (x0, candidate_y x0)) as Hc.
  { unfold on_curve. cbn [fst snd]. split; [lia|]. split; [exact Hr | exact Hsq]. }
  pose proof (on_curve_y_nonzero _ Hc) as Hnz. cbn [snd] in Hnz.
  rewrite land_1_mod_2.
  generalize dependent (candidate_y x0). intros c Hsq Hr Hc Hnz.
  assert (on_curve (x0, p - c)) as Hc'.
  { unfold on_curve. cbn [fst snd]. split; [lia|]. split; [lia|].
    rewrite neg_square_mod. exact Hsq. }
  cbn [fst snd].
  destruct (Z.eqb_spec parity 2) as [E|E]; destruct (Z.eqb_spec (c mod 2) 0) as [Ec|Ec];
    (split; [assumption|]); (split; [reflexivity|]);
    unfold p in *; (split; [lia|]); split; intro; try assumption; try contradiction;
    Z.div_mod_to_equations; lia.
Qed.

Lemma lift_x_R0_requested_parity_witness :
  on_curve G /\ fst G = fst G /\ 0 < snd G /\ (snd G mod 2 = 0 <-> 2 = 2).
Proof.
  apply (lift_x_R0_requested_parity (fst G) 2 G);
    [unfold G; cbn [fst]; lia | exact lift_x_G].
Defined.

(** [lift_x] fails only when it must: it returns [None] exactly when [x >= p]
    or [x^3 + 7] has no square root modulo [p]. *)
Theorem lift_x_fails_iff (x0 : Z) :
  lift_x x0 = None <-> (p <= x0 \/ ~ quadratic_residue (x0 ^ 3 + 7)).
Proof. exact (lift_x_complete x0). Qed.

Lemma parity_from_point_value (Q : Point) :
  parity_from_point (Some Q) = Ok (if snd Q mod 2 =? 0 then [x02] else [x03]).
Proof. reflexivity. Qed.

Lemma decompress_bytes (x0 y0 : Z) :
  on_curve (x0, y0) ->
  lift_x_R0 (int_from_bytes (be_bytes 32 x0))
            (int_from_bytes (if y0 mod 2 =? 0 then [x02] else [x03])) = Some (x0, y0).
Proof.
  intro H. pose proof H as (Hx & _ & _). cbn [fst] in Hx.
  rewrite int_from_be_bytes.
  rewrite Z.mod_small by (change (256 ^ Z.of_nat 32) with (2 ^ 256); pose proof p_lt_2_256; lia).
  pose proof (lift_x_R0_of_point x0 y0 H) as L.
  destruct (y0 mod 2 =? 0); exact L.
Qed.

(** Decompression round trip: from the parity byte and the 32-byte
    x-coordinate that [parity_from_point] and [bytes_from_point] produce for a
    valid point, [lift_x_R0] rebuilds that very point. *)
Theorem decompress_round_trip (Q : Point) :
  on_curve Q ->
  exists par bx : bytes,
    parity_from_point (Some Q) = Ok par /\
    bytes_from_point (Some Q) = Ok bx /\
    lift_x_R0 (int_from_bytes bx) (int_from_bytes par) = Some Q.
Proof.
  destruct Q as [x0 y0]. intro H. pose proof H as (Hx & _ & _). cbn [fst] in Hx.
  exists (if y0 mod 2 =? 0 then [x02] else [x03]), (be_bytes 32 x0).
  split; [apply parity_from_point_value|].
  split; [apply bytes_from_point_fits; unfold x_fits; cbn [fst]; pose proof p_lt_2_256; lia|].
  apply decompress_bytes. exact H.
Qed.

Lemma decompress_round_trip_witness :
  exists par bx : bytes,
    parity_from_point (Some G) = Ok par /\
    bytes_from_point (Some G) = Ok bx /\
    lift_x_R0 (int_from_bytes bx) (int_from_bytes par) = Some G.
Proof. apply (decompress_round_trip G). exact G_on_curve. Defined.

(** ** Public keys and pre-signatures decode to curve points *)

Lemma negate_negate (Q : Point) : negate (negate Q) = Q.
Proof. destruct Q as [a b]. unfold negate. cbn [fst snd]. f_equal. ring. Qed.

Lemma lift_x_of_point (Q : Point) :
  on_curve Q -> lift_x (fst Q) = Some Q \/ lift_x (fst Q) = Some (negate Q).
Proof.
  destruct Q as [x0 y0]. intro H. cbn [fst].
  pose proof (lift_x_R0_of_point x0 y0 H) as L.
  destruct (y0 mod 2 =? 0).
  - left. rewrite lift_x_is_lift_x_R0_2. exact L.
  - right. rewrite lift_x_R0_3_negate in L.
    destruct (lift_x x0) as [Q'|]; [|discriminate].
    cbn [option_map] in L. apply Some_inj in L. rewrite <- L, negate_negate. reflexivity.
Qed.

Lemma pubkey_gen_inv (seckey pk : bytes) :
  pubkey_gen seckey = Ok pk ->
  exists Q, point_mul (Some G) (int_from_bytes seckey) = Some Q /\ pk = be_bytes 32 (fst Q).
Proof.
  unfold pubkey_gen. cbv zeta.
  destruct (negb ((1 <=? int_from_bytes seckey) && (int_from_bytes seckey <=? n - 1)));
    [discriminate|].
  pose proof (point_mul_reduced (Some G) (int_from_bytes seckey) G_field_point) as HP.
  destruct (point_mul (Some G) (int_from_bytes seckey)) as [Q|];
    cbn [is_infinite negb assert bind]; [|discriminate].
  rewrite (bytes_from_point_fits Q (field_point_x_fits _ HP)).
  intro E. apply Ok_inj in E. exists Q. split; [reflexivity | symmetry; exact E].
Qed.

Lemma pubkey_gen_one : pubkey_gen (be_bytes 32 1) = Ok (be_bytes 32 (fst G)).
Proof.
  unfold pubkey_gen.
  change (int_from_bytes (be_bytes 32 1)) with 1.
  change (negb ((1 <=? 1) && (1 <=? n - 1))) with false. cbv iota zeta.
  rewrite point_mul_1. reflexivity.
Qed.

(** Every public key that [pubkey_gen] returns is a valid x-only key: 32
    bytes that encode the x-coordinate of the curve point [point_mul(G, d0)],
    which [lift_x] recovers up to the sign of y. *)
Theorem pubkey_gen_valid_x_only (seckey pk : bytes) :
  pubkey_gen seckey = Ok pk ->
  List.length pk = 32%nat /\
  exists Q, point_mul (Some G) (int_from_bytes seckey) = Some Q /\ on_curve Q /\
    int_from_bytes pk = fst Q /\
    (lift_x (int_from_bytes pk) = Some Q \/ lift_x (int_from_bytes pk) = Some (negate Q)).
Proof.
  intro H. apply pubkey_gen_inv in H. destruct H as (Q & HQ & ->).
  split; [apply length_be_bytes|]. exists Q. split; [exact HQ|].
  pose proof (point_mul_curve_point (Some G) (int_from_bytes seckey) G_on_curve) as HC.
  rewrite HQ in HC. cbn [curve_point] in HC.
  split; [exact HC|].
  assert (int_from_bytes (be_bytes 32 (fst Q)) = fst Q) as E.
  { rewrite int_from_be_bytes. apply Z.mod_small.
    destruct HC as (Hx & _). change (256 ^ Z.of_nat 32) with (2 ^ 256).
    pose proof p_lt_2_256. lia. }
  rewrite E. split; [reflexivity | apply lift_x_of_point; exact HC].
Qed.

Lemma pubkey_gen_valid_x_only_witness :
  List.length (be_bytes 32 (fst G)) = 32%nat /\
  exists Q, point_mul (Some G) (int_from_bytes (be_bytes 32 1)) = Some Q /\ on_curve Q /\
    int_from_bytes (be_bytes 32 (fst G)) = fst Q /\
    (lift_x (int_from_bytes (be_bytes 32 (fst G))) = Some Q \/
     lift_x (int_from_bytes (be_bytes 32 (fst G))) = Some (negate Q)).
Proof.
  apply (pubkey_gen_valid_x_only (be_bytes 32 1) (be_bytes 32 (fst G))).
  exact pubkey_gen_one.
Defined.

Lemma firstn_app_len {A : Type} (k : nat) (l l' : list A) :
  List.length l = k -> firstn k (l ++ l') = l.
Proof.
  intros <-. induction l as [|a l IH]; cbn [List.length firstn app].
  - destruct l'; reflexivity.
  - rewrite IH. reflexivity.
Qed.

Lemma skipn_app_len {A : Type} (k : nat) (l l' : list A) :
  List.length l = k -> skipn k (l ++ l') = l'.
Proof.
  intros <-. induction l as [|a l IH]; cbn [List.length skipn app]; [reflexivity | exact IH].
Qed.

Lemma pre_sign_nonce_range msg d0 aux_rand T P d k0 :
  pre_sign_nonce msg d0 aux_rand T = Ok (P, d, k0) -> 1 <= k0 <= n - 1.
Proof.
  unfold pre_sign_nonce. cbv zeta.
  generalize (point_mul (Some G) d0). intros P0 H.
  destruct (assert (negb (is_infinite P0))); cbn [bind] in H; [|discriminate].
  destruct (has_even_y P0) as [ev|]; cbn [bind] in H; [|discriminate].
  destruct (bytes_from_int (if ev then d0 else n - d0)) as [bd|]; cbn [bind] in H;
    [|discriminate].
  destruct (bytes_from_point T) as [bT|]; cbn [bind] in H; [|discriminate].
  destruct (bytes_from_point P0) as [bP|]; cbn [bind] in H; [|discriminate].
  match type of H with (if ?v =? 0 then _ else _) = _ =>
    pose proof (Z.mod_pos_bound (int_from_bytes
      (tagged_hash "BIP0340/nonce"
         (xor_bytes bd (tagged_hash "BIP0340/aux" aux_rand) ++ bT ++ bP ++ msg))) n
      ltac:(reflexivity)) as Hb;
    destruct (Z.eqb_spec v 0) as [E0|E0]
  end; [discriminate|].
  apply Ok_inj in H. apply (f_equal snd) in H. cbn [snd] in H. subst k0. lia.
Qed.

Lemma pre_sign_finish_inv msg T P d k0 sig :
  pre_sign_finish msg T P d k0 = Ok sig ->
  exists R0 s,
    point_add (point_mul (Some G) k0) T = Some R0 /\ 0 <= s < n /\
    sig = (if snd R0 mod 2 =? 0 then [x02] else [x03]) ++
          be_bytes 32 (fst R0) ++ be_bytes 32 s.
Proof.
  unfold pre_sign_finish. cbv zeta.
  generalize (point_mul (Some G) k0). intros R H.
  destruct (assert (negb (is_infinite R))); cbn [bind] in H; [|discriminate].
  destruct (has_even_y R) as [ev|]; cbn [bind] in H; [|discriminate].
  destruct (point_add R T) as [R0|]; [|discriminate].
  rewrite parity_from_point_value in H.
  destruct (bytes_from_point (Some R0)) as [bR0|] eqn:EbR0; cbn [bind] in H; [|discriminate].
  destruct (bytes_from_point P) as [bP|]; cbn [bind] in H; [|discriminate].
  match type of H with (bind (bytes_from_int ?v) _) = _ =>
    destruct (bytes_from_int v) as [bs|] eqn:Ebs; cbn [bind] in H; [|discriminate];
    apply bytes_from_int_inv in Ebs; destruct Ebs as (_ & ->);
    exists R0, v
  end.
  unfold schnorr_pre_verify in H. cbn [negb] in H. apply Ok_inj in H.
  unfold bytes_from_point, x in EbR0. cbn [bind] in EbR0.
  apply bytes_from_int_inv in EbR0. destruct EbR0 as (_ & ->).
  split; [reflexivity|]. split; [apply Z.mod_pos_bound; reflexivity|].
  symmetry. exact H.
Qed.

Lemma schnorr_pre_sign_inv msg seckey aux_rand T sig :
  schnorr_pre_sign msg seckey aux_rand T = Ok sig ->
  exists (R0 : Point) (k0 s : Z),
    1 <= k0 <= n - 1 /\
    point_add (point_mul (Some G) k0) T = Some R0 /\ 0 <= s < n /\
    sig = (if snd R0 mod 2 =? 0 then [x02] else [x03]) ++
          be_bytes 32 (fst R0) ++ be_bytes 32 s.
Proof.
  unfold schnorr_pre_sign.
  destruct (negb (List.length msg =? 32)%nat); [discriminate|].
  cbv zeta.
  destruct (negb ((1 <=? int_from_bytes seckey) && (int_from_bytes seckey <=? n - 1)));
    [discriminate|].
  destruct (negb (List.length aux_rand =? 32)%nat); [discriminate|].
  destruct (pre_sign_nonce msg (int_from_bytes seckey) aux_rand T) as [[[P d] k0]|] eqn:En;
    cbn [bind]; [|discriminate].
  intro E. apply pre_sign_nonce_range in En.
  apply pre_sign_finish_inv in E. destruct E as (R0 & s & HR0 & Hs & Hsig).
  exists R0, k0, s. repeat split; try assumption; lia.
Qed.

Lemma signature_layout (par : bytes) (x0 s : Z) :
  List.length par = 1%nat -> 0 <= s < n ->
  List.length (par ++ be_bytes 32 x0 ++ be_bytes 32 s) = 65%nat /\
  sig_parity (par ++ be_bytes 32 x0 ++ be_bytes 32 s) = int_from_bytes par /\
  sig_R0_x (par ++ be_bytes 32 x0 ++ be_bytes 32 s) = int_from_bytes (be_bytes 32 x0) /\
  sig_s (par ++ be_bytes 32 x0 ++ be_bytes 32 s) = s.
Proof.
  intros Hpar Hs. split; [|split; [|split]].
  - rewrite !length_app, !length_be_bytes, Hpar. reflexivity.
  - unfold sig_parity. rewrite (firstn_app_len 1 par _ Hpar). reflexivity.
  - unfold sig_R0_x. rewrite (skipn_app_len 1 par _ Hpar).
    rewrite (firstn_app_len 32 _ _ (length_be_bytes 32 x0)). reflexivity.
  - unfold sig_s. rewrite app_assoc.
    rewrite skipn_app_len by (rewrite length_app, length_be_bytes, Hpar; reflexivity).
    rewrite int_from_be_bytes.
    apply Z.mod_small. change (256 ^ Z.of_nat 32) with (2 ^ 256).
    pose proof n_lt_2_256. lia.
Qed.

(** Every pre-signature that [schnorr_pre_sign] returns for an adaptor point
    on the curve is well formed: 65 bytes, a parity byte and an x-coordinate
    from which [lift_x_R0] rebuilds the curve point
    [R0 = point_add(point_mul(G, k0), T)] for a nonce [k0] in [1, n-1], and a
    scalar below [n]. *)
Theorem pre_sign_signature_decodes (msg seckey aux_rand : bytes) (T : option Point) :
  curve_point T ->
  match schnorr_pre_sign msg seckey aux_rand T with
  | Ok sig =>
      List.length sig = 65%nat /\
      0 <= sig_s sig < n /\
      exists (R0 : Point) (k0 : Z),
        1 <= k0 <= n - 1 /\
        point_add (point_mul (Some G) k0) T = Some R0 /\
        on_curve R0 /\
        lift_x_R0 (sig_R0_x sig) (sig_parity sig) = Some R0
  | Raise _ => True
  end.
Proof.
  intro HT.
  pose proof (schnorr_pre_sign_inv msg seckey aux_rand T) as Hinv.
  generalize dependent (schnorr_pre_sign msg seckey aux_rand T).
  intros [sig|e] Hinv; [|exact I].
  destruct (Hinv sig eq_refl) as ([x0 y0] & k0 & s & Hk & HR0 & Hs & ->).
  cbn [fst snd].
  pose proof (point_add_curve_point _ _
                (point_mul_curve_point (Some G) k0 G_on_curve) HT) as HC.
  rewrite HR0 in HC. cbn [curve_point] in HC.
  assert (List.length (if y0 mod 2 =? 0 then [x02] else [x03]) = 1%nat) as Hpar
    by (destruct (y0 mod 2 =? 0); reflexivity).
  destruct (signature_layout _ x0 s Hpar Hs) as (Hlen & Hp & Hx & Hss).
  rewrite Hlen, Hp, Hx, Hss.
  split; [reflexivity|]. split; [exact Hs|].
  exists (x0, y0), k0. split; [exact Hk|]. split; [exact HR0|]. split; [exact HC|].
  apply decompress_bytes. exact HC.
Qed.

Lemma pre_sign_signature_decodes_witness :
  match schnorr_pre_sign (repeat x00 32) (be_bytes 32 1) (repeat x00 32) (Some G) with
  | Ok sig =>
      List.length sig = 65%nat /\
      0 <= sig_s sig < n /\
      exists (R0 : Point) (k0 : Z),
        1 <= k0 <= n - 1 /\
        point_add (point_mul (Some G) k0) (Some G) = Some R0 /\
        on_curve R0 /\
        lift_x_R0 (sig_R0_x sig) (sig_parity sig) = Some R0
  | Raise _ => True
  end.
Proof.
  apply (pre_sign_signature_decodes (repeat x00 32) (be_bytes 32 1) (repeat x00 32) (Some G)).
  exact G_on_curve.
Defined.

(** ** When a sum is the identity *)

(** For valid points, [point_add] returns the identity exactly when the
    second point is the negation of the first. *)
Theorem point_add_identity_iff (A B : Point) :
  on_curve A -> on_curve B ->
  (point_add (Some A) (Some B) = None <-> B = negate A).
Proof.
  intros HA HB. split.
  - destruct A as [x1 y1], B as [x2 y2].
    pose proof (on_curve_cong _ HA) as CA. pose proof (on_curve_cong _ HB) as CB.
    pose proof (on_curve_y_nonzero _ HA) as NA.
    destruct HA as (_ & HyA & _), HB as (_ & HyB & _). cbn [fst snd] in *.
    unfold point_add.
    destruct (Z.eqb_spec x1 x2) as [Ex|Ex]; cbn [andb]; [|cbv zeta; discriminate].
    destruct (Z.eqb_spec y1 y2) as [Ey|Ey]; cbn [negb]; [cbv zeta; discriminate|].
    intros _. subst x2. unfold negate. cbn [fst snd]. f_equal.
    destruct (square_roots y2 y1 HyB ltac:(lia)
                (cong_trans _ _ _ CB (cong_sym _ _ CA))) as [E|E];
      [congruence | exact E].
  - intros ->. apply point_add_negate.
Qed.

Lemma point_add_identity_iff_witness :
  point_add (Some G) (Some (negate G)) = None <-> negate G = negate G.
Proof.
  apply (point_add_identity_iff G (negate G)); [exact G_on_curve|].
  unfold on_curve, negate. cbn [fst snd]. repeat split; try (vm_compute; congruence).
Defined.

(** What the tests print: for a pre-signature returned for an adaptor point
    on the curve, the parity byte is 2 or 3, and
    [has_even_y(lift_x_R0(int(sig[1:33]), int(sig[0:1])))] raises nothing and
    is [True] exactly when the parity byte is 2. *)
Theorem pre_sign_parity_byte (msg seckey aux_rand : bytes) (T : option Point) :
  curve_point T ->
  match schnorr_pre_sign msg seckey aux_rand T with
  | Ok sig =>
      (sig_parity sig = 2 \/ sig_parity sig = 3) /\
      has_even_y (lift_x_R0 (sig_R0_x sig) (sig_parity sig)) = Ok (sig_parity sig =? 2)
  | Raise _ => True
  end.
Proof.
  intro HT.
  pose proof (schnorr_pre_sign_inv msg seckey aux_rand T) as Hinv.
  generalize dependent (schnorr_pre_sign msg seckey aux_rand T).
  intros [sig|e] Hinv; [|exact I].
  destruct (Hinv sig eq_refl) as ([x0 y0] & k0 & s & Hk & HR0 & Hs & ->).
  cbn [fst snd].
  pose proof (point_add_curve_point _ _
                (point_mul_curve_point (Some G) k0 G_on_curve) HT) as HC.
  rewrite HR0 in HC. cbn [curve_point] in HC.
  assert (List.length (if y0 mod 2 =? 0 then [x02] else [x03]) = 1%nat) as Hpar
    by (destruct (y0 mod 2 =? 0); reflexivity).
  destruct (signature_layout _ x0 s Hpar Hs) as (_ & Hp & Hx & _).
  rewrite Hp, Hx.
  pose proof (decompress_bytes x0 y0 HC) as L.
  assert (has_even_y (Some (x0, y0)) = Ok (y0 mod 2 =? 0)) as Hev by reflexivity.
  destruct (y0 mod 2 =? 0); cbv iota in L |- *; rewrite L, Hev;
    (split; [|reflexivity]); [left | right]; reflexivity.
Qed.

Lemma pre_sign_parity_byte_witness :
  match schnorr_pre_sign (repeat x00 32) (be_bytes 32 1) (repeat x00 32) (Some G) with
  | Ok sig =>
      (sig_parity sig = 2 \/ sig_parity sig = 3) /\
      has_even_y (lift_x_R0 (sig_R0_x sig) (sig_parity sig)) = Ok (sig_parity sig =? 2)
  | Raise _ => True
  end.
Proof.
  apply (pre_sign_parity_byte (repeat x00 32) (be_bytes 32 1) (repeat x00 32) (Some G)).
  exact G_on_curve.
Defined.

(** ** What a returned pre-signature tells about the inputs *)

Lemma pre_sign_nonce_adaptor_finite msg d0 aux_rand T r :
  pre_sign_nonce msg d0 aux_rand T = Ok r -> T <> None.
Proof.
  intros H HT. subst T. revert H.
  unfold pre_sign_nonce. cbv zeta.
  generalize (point_mul (Some G) d0). intros P0 H.
  destruct (assert (negb (is_infinite P0))); cbn [bind] in H; [|discriminate].
  destruct (has_even_y P0) as [ev|]; cbn [bind] in H; [|discriminate].
  destruct (bytes_from_int (if ev then d0 else n - d0)) as [bd|]; cbn [bind] in H;
    [|discriminate].
  change (bytes_from_point None) with (@Raise bytes AssertionError) in H.
  cbn [bind] in H. discriminate.
Qed.

Lemma schnorr_pre_sign_ok_inputs msg seckey aux_rand T sig :
  schnorr_pre_sign msg seckey aux_rand T = Ok sig ->
  preconditions msg seckey aux_rand /\ T <> None.
Proof.
  intro H.
  destruct (Nat.eq_dec (List.length msg) 32) as [Hm|Hm];
    [|rewrite (pre_sign_bad_msg _ _ _ _ Hm) in H; discriminate].
  assert (1 <= int_from_bytes seckey <= n - 1) as Hd.
  { destruct (Z_le_dec 1 (int_from_bytes seckey)) as [H1|H1];
      [destruct (Z_le_dec (int_from_bytes seckey) (n - 1)) as [H2|H2]|];
      [lia | | ];
      rewrite (pre_sign_bad_seckey _ _ _ _ Hm) in H by lia; discriminate. }
  destruct (Nat.eq_dec (List.length aux_rand) 32) as [Ha|Ha];
    [|rewrite (pre_sign_bad_aux_rand _ _ _ _ Hm Hd Ha) in H; discriminate].
  assert (preconditions msg seckey aux_rand) as Hpre by (repeat split; assumption || lia).
  split; [exact Hpre|].
  rewrite (pre_sign_checks_pass _ _ _ T Hpre) in H.
  destruct (pre_sign_nonce msg (int_from_bytes seckey) aux_rand T) as [r|] eqn:En;
    cbn [bind] in H; [|discriminate].
  exact (pre_sign_nonce_adaptor_finite _ _ _ _ _ En).
Qed.

(** With no assumption on the adaptor point: a pre-signature is returned only
    when the three input checks pass and [T] is a finite point; it then has
    exactly 65 bytes, its first byte is 0x02 or 0x03, and its last 32 bytes
    encode a scalar below [n]. *)
Theorem pre_sign_output_layout (msg seckey aux_rand : bytes) (T : option Point) :
  match schnorr_pre_sign msg seckey aux_rand T with
  | Ok sig =>
      preconditions msg seckey aux_rand /\ T <> None /\
      List.length sig = 65%nat /\
      (firstn 1 sig = [x02] \/ firstn 1 sig = [x03]) /\
      0 <= sig_R0_x sig < 2 ^ 256 /\
      0 <= sig_s sig < n
  | Raise _ => True
  end.
Proof.
  pose proof (schnorr_pre_sign_inv msg seckey aux_rand T) as Hinv.
  pose proof (schnorr_pre_sign_ok_inputs msg seckey aux_rand T) as Hin.
  generalize dependent (schnorr_pre_sign msg seckey aux_rand T).
  intros [sig|e] Hinv Hin; [|exact I].
  destruct (Hin sig eq_refl) as (Hpre & HT).
  destruct (Hinv sig eq_refl) as ([x0 y0] & k0 & s & Hk & HR0 & Hs & ->).
  cbn [fst snd].
  assert (List.length (if y0 mod 2 =? 0 then [x02] else [x03]) = 1%nat) as Hpar
    by (destruct (y0 mod 2 =? 0); reflexivity).
  destruct (signature_layout _ x0 s Hpar Hs) as (Hlen & _ & Hx & Hss).
  rewrite Hlen, Hx, Hss.
  split; [exact Hpre|]. split; [exact HT|]. split; [reflexivity|].
  split; [destruct (y0 mod 2 =? 0); [left | right]; reflexivity|].
  split; [|exact Hs].
  rewrite int_from_be_bytes. change (256 ^ Z.of_nat 32) with (2 ^ 256).
  apply Z.mod_pos_bound. reflexivity.
Qed.

(** ** Negation and parity *)

(** The negation of a valid point is a valid point different from it, with
    the opposite parity of y; and [lift_x] of their common x-coordinate
    returns the one of the two whose y is even. *)
Theorem negation_flips_parity (A : Point) :
  on_curve A ->
  on_curve (negate A) /\ negate A <> A /\
  (exists b, has_even_y (Some A) = Ok b /\ has_even_y (Some (negate A)) = Ok (negb b)) /\
  lift_x (fst A) = Some (if snd A mod 2 =? 0 then A else negate A).
Proof.
  destruct A as [x0 y0]. intro H.
  pose proof (on_curve_y_nonzero _ H) as Hnz. cbn [snd] in Hnz.
  pose proof (lift_x_R0_of_point x0 y0 H) as L.
  destruct H as (Hx & Hy & Hsq). cbn [fst snd] in *.
  unfold negate. cbn [fst snd].
  split; [|split; [|split]].
  - unfold on_curve. cbn [fst snd]. split; [exact Hx|]. split; [lia|].
    rewrite neg_square_mod. exact Hsq.
  - intro E. apply (f_equal snd) in E. cbn [snd] in E. unfold p in *. lia.
  - exists (y0 mod 2 =? 0). split; [reflexivity|].
    unfold has_even_y. cbn [is_infinite negb assert bind y snd]. f_equal.
    unfold p in *.
    destruct (Z.eqb_spec (y0 mod 2) 0) as [E|E];
      destruct (Z.eqb_spec ((115792089237316195423570985008687907853269984665640564039457584007908834671663 - y0) mod 2) 0) as [E'|E'];
      try reflexivity; exfalso; Z.div_mod_to_equations; lia.
  - destruct (y0 mod 2 =? 0).
    + rewrite lift_x_is_lift_x_R0_2. exact L.
    + rewrite lift_x_R0_3_negate in L.
      destruct (lift_x x0) as [[x' y']|]; [|discriminate].
      cbn [option_map] in L. apply Some_inj in L. unfold negate in L. cbn [fst snd] in L.
      apply (f_equal (fun Q => (fst Q, p - snd Q))) in L. cbn [fst snd] in L.
      rewrite <- L. f_equal. f_equal. ring.
Qed.

Lemma negation_flips_parity_witness :
  on_curve (negate G) /\ negate G <> G /\
  (exists b, has_even_y (Some G) = Ok b /\ has_even_y (Some (negate G)) = Ok (negb b)) /\
  lift_x (fst G) = Some (if snd G mod 2 =? 0 then G else negate G).
Proof. apply (negation_flips_parity G). exact G_on_curve. Defined.

(** * Debug rendering *)

(** The values [pretty] is applied to: the local variables of the signing
    code are bytes, integers, points (pairs of integers) and [None];
    [bool] is a subclass of [int] in Python. *)
#[local] Unset Elimination Schemes.
Inductive pyval : Type :=
| VNone
| VBool (c : bool)
| VInt (z : Z)
| VBytes (b : bytes)
| VStr (s : string)
| VTuple (l : list pyval).
#[local] Set Elimination Schemes.

Definition hex_digit (d : Z) : ascii :=
  nth (Z.to_nat d) (list_ascii_of_string "0123456789abcdef") "0"%char.

(** [b.hex()] *)
Definition hex (b : bytes) : string :=
  string_of_list_ascii
    (flat_map (fun c => [hex_digit (Z_of_byte c / 16); hex_digit (Z_of_byte c mod 16)]) b).

Definition pretty_bytes (b : bytes) : pyval := VStr ("0x" ++ hex b).

Fixpoint pretty (v : pyval) : result pyval :=
  match v with
  | VBytes b => Ok (pretty_bytes b)
  | VInt z => b <- bytes_from_int z ;; Ok (pretty_bytes b)
  | VBool c => b <- bytes_from_int (if c then 1 else 0) ;; Ok (pretty_bytes b)
  | VTuple l =>
    l' <- (fix pretty_all (l : list pyval) : result (list pyval) :=
             match l with
             | [] => Ok []
             | a :: r => a' <- pretty a ;; r' <- pretty_all r ;; Ok (a' :: r')
             end) l ;;
    Ok (VTuple l')
  | VNone => Ok VNone
  | VStr s => Ok (VStr s)
  end.

(** [tuple(map(pretty, l))] *)
Fixpoint pretty_all (l : list pyval) : result (list pyval) :=
  match l with
  | [] => Ok []
  | a :: r => a' <- pretty a ;; r' <- pretty_all r ;; Ok (a' :: r')
  end.

(** A value that holds no bytes and no integers any more. *)
Fixpoint rendered (v : pyval) : bool :=
  match v with
  | VNone | VStr _ => true
  | VBool _ | VInt _ | VBytes _ => false
  | VTuple l => (fix all (l : list pyval) : bool :=
                   match l with
                   | [] => true
                   | a :: r => rendered a && all r
                   end) l
  end.

Section PyvalInduction.
Variable P : pyval -> Prop.
Hypothesis HNone : P VNone.
Hypothesis HBool : forall c, P (VBool c).
Hypothesis HInt : forall z, P (VInt z).
Hypothesis HBytes : forall b, P (VBytes b).
Hypothesis HStr : forall s, P (VStr s).
Hypothesis HTuple : forall l, Forall P l -> P (VTuple l).

Fixpoint pyval_nested_ind (v : pyval) : P v :=
    match v with
    | VNone => HNone
    | VBool c => HBool c
    | VInt z => HInt z
    | VBytes b => HBytes b
    | VStr s => HStr s
    | VTuple l =>
      HTuple l ((fix go (l : list pyval) : Forall P l :=
                   match l with
                   | [] => Forall_nil P
                   | a :: r => Forall_cons a (pyval_nested_ind a) (go r)
                   end) l)
    end.
End PyvalInduction.

Lemma pretty_tuple (l : list pyval) :
  pretty (VTuple l) = l' <- pretty_all l ;; Ok (VTuple l').
Proof.
  cbn [pretty]. f_equal.
Qed.

Lemma rendered_tuple (l : list pyval) : rendered (VTuple l) = forallb rendered l.
Proof.
  cbn [rendered]. induction l as [|a r IH]; [reflexivity|].
  cbn [forallb]. rewrite IH. reflexivity.
Qed.

Lemma pretty_gives_rendered (v w : pyval) : pretty v = Ok w -> rendered w = true.
Proof.
  revert w. induction v as [ | c | z | b | s | l IH] using pyval_nested_ind; intros w H.
  - apply Ok_inj in H. subst w. reflexivity.
  - cbn [pretty] in H. destruct (bytes_from_int (if c then 1 else 0)); cbn [bind] in H;
      [|discriminate]. apply Ok_inj in H. subst w. reflexivity.
  - cbn [pretty] in H. destruct (bytes_from_int z); cbn [bind] in H; [|discriminate].
    apply Ok_inj in H. subst w. reflexivity.
  - apply Ok_inj in H. subst w. reflexivity.
  - apply Ok_inj in H. subst w. reflexivity.
  - rewrite pretty_tuple in H.
    destruct (pretty_all l) as [l'|] eqn:E; cbn [bind] in H; [|discriminate].
    apply Ok_inj in H. subst w. rewrite rendered_tuple.
    revert l' E. induction IH as [|a r Ha _ IHr]; intros l' E.
    + apply Ok_inj in E. subst l'. reflexivity.
    + cbn [pretty_all] in E.
      destruct (pretty a) as [a'|] eqn:Ea; cbn [bind] in E; [|discriminate].
      destruct (pretty_all r) as [r'|] eqn:Er; cbn [bind] in E; [|discriminate].
      apply Ok_inj in E. subst l'. cbn [forallb].
      rewrite (Ha a' eq_refl), (IHr r' eq_refl). reflexivity.
Qed.

Lemma rendered_is_fixed (w : pyval) : rendered w = true -> pretty w = Ok w.
Proof.
  induction w as [ | c | z | b | s | l IH] using pyval_nested_ind; intro H;
    try discriminate H; try reflexivity.
  rewrite rendered_tuple in H. rewrite pretty_tuple.
  assert (pretty_all l = Ok l) as E.
  { induction IH as [|a r Ha _ IHr]; [reflexivity|].
    cbn [forallb] in H. apply andb_true_iff in H. destruct H as [H1 H2].
    cbn [pretty_all]. rewrite (Ha H1), (IHr H2). reflexivity. }
  rewrite E. reflexivity.
Qed.

Lemma length_string_of_list (l : list ascii) :
  String.length (string_of_list_ascii l) = List.length l.
Proof. induction l as [|a l IH]; [reflexivity|]. cbn. rewrite IH. reflexivity. Qed.

Lemma length_hex (b : bytes) : String.length (hex b) = (2 * List.length b)%nat.
Proof.
  unfold hex. rewrite length_string_of_list.
  induction b as [|c b IH]; [reflexivity|].
  cbn [flat_map app List.length]. rewrite IH. lia.
Qed.

(** [pretty] is idempotent: a value it returns holds no bytes and no integers
    any more, and [pretty] returns it unchanged. *)
Theorem pretty_idempotent (v w : pyval) : pretty v = Ok w -> pretty w = Ok w.
Proof.
  intro H. apply rendered_is_fixed. exact (pretty_gives_rendered v w H).
Qed.

Lemma pretty_idempotent_witness :
  pretty (VTuple [VStr "0x01"; VNone]) = Ok (VTuple [VStr "0x01"; VNone]).
Proof.
  apply (pretty_idempotent (VTuple [VBytes [x01]; VNone])). reflexivity.
Defined.

(** How [pretty] renders integers: an integer in [0, 2^256) is rendered as
    its 32-byte big-endian encoding is, a string of 66 characters; any other
    integer makes [pretty] stop with [OverflowError]; and a point is rendered
    coordinate by coordinate. *)
Theorem pretty_integers (z z' : Z) :
  (0 <= z < 2 ^ 256 ->
   pretty (VInt z) = pretty (VBytes (be_bytes 32 z)) /\
   exists s, pretty (VInt z) = Ok (VStr s) /\ String.length s = 66%nat) /\
  (~ (0 <= z < 2 ^ 256) ->
   pretty (VInt z) = Raise OverflowError /\
   pretty (VTuple [VInt z; VInt z']) = Raise OverflowError) /\
  (0 <= z < 2 ^ 256 -> 0 <= z' < 2 ^ 256 ->
   pretty (VTuple [VInt z; VInt z']) =
   Ok (VTuple [pretty_bytes (be_bytes 32 z); pretty_bytes (be_bytes 32 z')])).
Proof.
  split; [|split].
  - intro H. cbn [pretty]. rewrite (bytes_from_int_ok z H). cbn [bind].
    split; [reflexivity|].
    exists ("0x" ++ hex (be_bytes 32 z))%string. split; [reflexivity|].
    cbn [String.append String.length]. rewrite length_hex, length_be_bytes. reflexivity.
  - intro H. cbn [pretty]. rewrite (bytes_from_int_overflow z H). cbn [bind].
    split; reflexivity.
  - intros H H'. cbn [pretty].
    rewrite (bytes_from_int_ok z H), (bytes_from_int_ok z' H'). reflexivity.
Qed.
